(** * AirMailX Sender: the recipient parser and the bulk-send worker

    A shallow embedding of [Final_working-email5.py]: [parse_receivers],
    [log_message], [send_bulk_emails] and the configuration-building part of
    [API.send_emails], followed by the properties the design document states
    about them.

    Conventions of the model.
    - Text is a [string] whose characters are code points below 256;
      [str.strip], [str.lower] and the regular-expression class [\s] follow
      Python on that range.
    - A Python [float] is an exact rational ([Qc]); NaN, the infinities and
      rounding are outside the model.
    - Everything outside the program (the SMTP server, the clock, the random
      generator) is a tape in the [World]: the program pops the next answer.
    - The [email] package is a parameter of the worker: [composing] says,
      for each message, whether building and rendering it raises.
    - A Python exception is a [PyExn]; code that can raise lives in the monad
      [M], whose results are [Ok] or [Raised]. *)

From Stdlib Require Import Ascii String QArith Qcanon.
From stdpp Require Import numbers pretty strings gmap list.

Open Scope string_scope.
Open Scope list_scope.

(** ** Python values and exceptions *)

(** What the entries [smtp_port], [min_delay] and [max_delay] of the
    settings can hold: the defaults are [int]s, the form delivers [str]s, and
    the other JSON scalars are kept for the conversions [int] and [float]. *)
Inductive PyVal :=
| PyNone
| PyBool (b : bool)
| PyInt (z : Z)
| PyFloat (q : Qc)
| PyStr (s : string).

(** An instance of a subclass of [Exception]; [exn_text] is [str(e)]. *)
Record PyExn := mkExn { exn_class : string; exn_text : string }.

Definition ValueError := mkExn "ValueError".
Definition TypeError := mkExn "TypeError".
Definition OverflowError := mkExn "OverflowError".

Inductive Result (A : Type) :=
| Ok (a : A)
| Raised (e : PyExn).
Arguments Ok {A} a.
Arguments Raised {A} e.

(** ** The world the program runs in *)

(** [settings], the module-level dict. Its key set is fixed when the module
    is loaded and no key is ever deleted, so it is a record. The text entries
    are [str] (the form's [el.value]); the list under ["receiver_list"] only
    ever holds the strings [parse_receivers] returned. *)
Record Settings := mkSettings {
  smtp_server : string;
  smtp_port : PyVal;
  sender_email : string;
  password : string;
  subject : string;
  body : string;
  min_delay : PyVal;
  max_delay : PyVal;
  receiver_list : list string
}.

Definition default_settings : Settings :=
  {| smtp_server := "smtp.gmail.com";
     smtp_port := PyInt 587;
     sender_email := "";
     password := "";
     subject := "Test Email from AirMailX Sender";
     body := "<html>Paste your HTML email template here</html>";
     min_delay := PyInt 2;
     max_delay := PyInt 5;
     receiver_list := [] |}.

(** The [MIMEMultipart] message of one recipient: three headers and one HTML
    part. *)
Record Message := mkMessage {
  msg_From : string;
  msg_To : string;
  msg_Subject : string;
  msg_html : string
}.

(** What the program does to the outside: every SMTP call it attempts
    (whether the call then raises or not) and every sleep it completes. *)
Inductive Event :=
| SMTP_connect (host : string) (port : Z)
| SMTP_ehlo
| SMTP_starttls
| SMTP_login (user pw : string)
| SMTP_sendmail (from_addr to_addr : string) (msg : Message)
| SMTP_quit
| Slept (secs : Qc).

(** One answer per call: [None] when the call returns, [Some e] when it
    raises [e]. [ehlo] and [sendmail] are called repeatedly and have a tape;
    index 0 is the next call. *)
Record Transport := mkTransport {
  connect_outcome : option PyExn;
  ehlo_outcomes : nat → option PyExn;
  starttls_outcome : option PyExn;
  login_outcome : option PyExn;
  sendmail_outcomes : nat → option PyExn;
  quit_outcome : option PyExn
}.

(** A line of the log: [log_message] prints ["[" + timestamp() + "] " + msg]. *)
Record LogEvent := mkLog { log_time : string; log_text : string }.

Definition render (l : LogEvent) : string :=
  "[" +:+ log_time l +:+ "] " +:+ log_text l.

Record World := mkWorld {
  settings : Settings;
  log : list LogEvent;          (* console and log box, oldest first *)
  trace : list Event;           (* oldest first *)
  clock : nat → string;         (* results of timestamp(), next first *)
  rng : nat → Qc;               (* results of random.random(), next first *)
  smtp : Transport
}.

Definition behead {A} (t : nat → A) : nat → A := λ k, t (S k).

(** ** The monad of code that reads and changes the world and may raise *)

Definition M (A : Type) : Type := World → Result A * World.

Global Instance M_ret : MRet M := λ A a w, (Ok a, w).

Global Instance M_bind : MBind M := λ A B f m w,
  match m w with
  | (Ok a, w') => f a w'
  | (Raised e, w') => (Raised e, w')
  end.

Definition raise {A} (e : PyExn) : M A := λ w, (Raised e, w).

(** A computation that does not touch the world. *)
Definition lift {A} (r : Result A) : M A := λ w, (r, w).

(** [try: m except Exception as e: h e] *)
Definition try_except {A} (m : M A) (h : PyExn → M A) : M A := λ w,
  match m w with
  | (Ok a, w') => (Ok a, w')
  | (Raised e, w') => h e w'
  end.

(** [try: m except Exception: pass] *)
Definition try_pass (m : M unit) : M unit := try_except m (λ _, mret tt).

Definition get_settings : M Settings := λ w, (Ok (settings w), w).

Definition set_settings (s : Settings) : M unit := λ w,
  (Ok tt, mkWorld s (log w) (trace w) (clock w) (rng w) (smtp w)).

Definition emit (ev : Event) : M unit := λ w,
  (Ok tt, mkWorld (settings w) (log w) (trace w ++ [ev]) (clock w) (rng w) (smtp w)).

(** ** Logging helper *)

Definition timestamp : M string := λ w,
  (Ok (clock w 0),
   mkWorld (settings w) (log w) (trace w) (behead (clock w)) (rng w) (smtp w)).

Definition print (l : LogEvent) : M unit := λ w,
  (Ok tt, mkWorld (settings w) (log w ++ [l]) (trace w) (clock w) (rng w) (smtp w)).

(** [safe_eval_js] catches whatever the window raises, so [log_message]
    itself never raises; the log box mirrors the console, which is the one
    [log] of the model. *)
Definition log_message (msg : string) : M unit :=
  ts ← timestamp;
  print (mkLog ts msg).

(** ** Text *)

Definition code (c : ascii) : nat := nat_of_ascii c.

(** [str.isspace] on one character, also the class [\s] of [re]. *)
Definition isspace (c : ascii) : bool :=
  let n := code c in
  (((9 <=? n) && (n <=? 13)) || ((28 <=? n) && (n <=? 32))
   || (n =? 133) || (n =? 160))%nat.

Definition lower_char (c : ascii) : ascii :=
  let n := code c in
  if (((65 <=? n) && (n <=? 90))
      || ((192 <=? n) && (n <=? 222) && negb (n =? 215)))%nat
  then ascii_of_nat (n + 32) else c.

Fixpoint str_lower (s : string) : string :=
  match s with
  | EmptyString => EmptyString
  | String c s' => String (lower_char c) (str_lower s')
  end.

Fixpoint str_lstrip (s : string) : string :=
  match s with
  | EmptyString => EmptyString
  | String c s' => if isspace c then str_lstrip s' else s
  end.

Definition str_rstrip (s : string) : string :=
  String.rev (str_lstrip (String.rev s)).

Definition str_strip (s : string) : string := str_rstrip (str_lstrip s).

(** Python's truth value of a [str]. *)
Definition str_truthy (s : string) : bool :=
  match s with EmptyString => false | _ => true end.

(** [c in s] for a character. *)
Fixpoint has_char (c : ascii) (s : string) : bool :=
  match s with
  | EmptyString => false
  | String x s' => bool_decide (x = c) || has_char c s'
  end.

Definition backslash : ascii := ascii_of_nat 92.

Definition double_quote : ascii := ascii_of_nat 34.

(** [str.isprintable] on one character. *)
Definition isprintable (c : ascii) : bool :=
  let n := code c in
  (((32 <=? n) && (n <=? 126)) || ((161 <=? n) && negb (n =? 173)))%nat.

Definition hex_digit (n : nat) : ascii :=
  ascii_of_nat (if (n <? 10)%nat then 48 + n else 87 + n).

(** One character inside [repr(s)], between quotes [q]. *)
Definition repr_char (q c : ascii) : string :=
  let n := code c in
  if bool_decide (c = backslash) || bool_decide (c = q)
  then String backslash (String c EmptyString)
  else if (n =? 9)%nat then String backslash "t"
  else if (n =? 10)%nat then String backslash "n"
  else if (n =? 13)%nat then String backslash "r"
  else if isprintable c then String c EmptyString
  else String backslash
         (String "x" (String (hex_digit (n / 16))
                        (String (hex_digit (n mod 16)) EmptyString))).

Fixpoint repr_body (q : ascii) (s : string) : string :=
  match s with
  | EmptyString => EmptyString
  | String c s' => repr_char q c +:+ repr_body q s'
  end.

(** [repr(s)]: single quotes, unless the text holds one and no double
    quote. *)
Definition repr (s : string) : string :=
  let q := if has_char "'" s && negb (has_char double_quote s)
           then double_quote else "'"%char in
  String q (repr_body q s +:+ String q EmptyString).

(** *** Regular expressions, matched by derivatives *)

Inductive regex :=
| Void
| Eps
| Cls (p : ascii → bool)
| Cat (r s : regex)
| Alt (r s : regex)
| Star (r : regex).

Definition Plus (r : regex) : regex := Cat r (Star r).
Definition Chr (c : ascii) : regex := Cls (λ x, bool_decide (x = c)).

Fixpoint nullable (r : regex) : bool :=
  match r with
  | Void => false
  | Eps => true
  | Cls _ => false
  | Cat r s => nullable r && nullable s
  | Alt r s => nullable r || nullable s
  | Star _ => true
  end.

Fixpoint deriv (c : ascii) (r : regex) : regex :=
  match r with
  | Void => Void
  | Eps => Void
  | Cls p => if p c then Eps else Void
  | Cat r s =>
      if nullable r then Alt (Cat (deriv c r) s) (deriv c s)
      else Cat (deriv c r) s
  | Alt r s => Alt (deriv c r) (deriv c s)
  | Star r => Cat (deriv c r) (Star r)
  end.

(** The whole of [s] is a word of [r]. *)
Fixpoint fullmatch (r : regex) (s : string) : bool :=
  match s with
  | EmptyString => nullable r
  | String c s' => fullmatch (deriv c r) s'
  end.

(** [[^@\s]] *)
Definition addr_char : regex := Cls (λ c, negb (bool_decide (c = "@"%char) || isspace c)).

(** [[^@\s]+@[^@\s]+\.[^@\s]+], the part of [EMAIL_RE] between [^] and [$]. *)
Definition EMAIL_RE : regex :=
  Cat (Plus addr_char)
      (Cat (Chr "@") (Cat (Plus addr_char) (Cat (Chr ".") (Plus addr_char)))).

Definition newline : ascii := ascii_of_nat 10.

(** [s] without one final newline, if it has one. *)
Fixpoint chomp (s : string) : option string :=
  match s with
  | EmptyString => None
  | String c EmptyString => if bool_decide (c = newline) then Some EmptyString else None
  | String c s' => String c <$> chomp s'
  end.

(** [EMAIL_RE.match(e)] is not [None]: [^] anchors the start, [$] matches at
    the end of the string and also just before a newline that ends it. *)
Definition EMAIL_RE_match (e : string) : bool :=
  fullmatch EMAIL_RE e
  || match chomp e with Some e' => fullmatch EMAIL_RE e' | None => false end.

(** [[,\n;]] *)
Definition is_delim (c : ascii) : bool :=
  bool_decide (c = ","%char) || bool_decide (c = newline) || bool_decide (c = ";"%char).

(** [re.split(r"[,\n;]+", text)]: [cur] is the piece being read, [in_run]
    says that the previous character was a delimiter. A run of delimiters
    ends one piece; a run at either end of the text leaves an empty piece
    there. *)
Fixpoint re_split_go (in_run : bool) (cur : string) (s : string) : list string :=
  match s with
  | EmptyString => [cur]
  | String c s' =>
      if is_delim c then
        if in_run then re_split_go true cur s'
        else cur :: re_split_go true EmptyString s'
      else re_split_go false (cur +:+ String c EmptyString) s'
  end.

Definition re_split (text : string) : list string :=
  re_split_go false EmptyString text.

(** ** Utility: parse receivers string *)

Definition warning_text (e : string) : string :=
  "Warning: '" +:+ e +:+ "' doesn't look like a valid email address.".

(** The body of [for p in parts], on the loop's two variables. *)
Definition parse_step (p : string) (st : gset string * list string)
  : M (gset string * list string) :=
  let '(seen, out) := st in
  let e := str_strip p in
  if negb (str_truthy e) then mret st
  else if EMAIL_RE_match e then
    if bool_decide (str_lower e ∈ seen) then mret st
    else mret ({[str_lower e]} ∪ seen, out ++ [e])
  else
    if bool_decide (str_lower e ∈ seen) then mret st
    else
      log_message (warning_text e);;
      mret ({[str_lower e]} ∪ seen, out ++ [e]).

Fixpoint parse_loop (parts : list string) (st : gset string * list string)
  : M (gset string * list string) :=
  match parts with
  | [] => mret st
  | p :: parts' => st' ← parse_step p st; parse_loop parts' st'
  end.

Definition parse_receivers (text : string) : M (list string) :=
  if negb (str_truthy text) then mret []
  else
    st ← parse_loop (re_split text) (∅, []);
    mret st.2.

(** ** Numbers *)

(** [random.uniform(a, b)] is [a + (b - a) * self.random()]. *)
Definition uniform (a b r : Qc) : Qc := (a + (b - a) * r)%Qc.

Definition random_random : M Qc := λ w,
  (Ok (rng w 0),
   mkWorld (settings w) (log w) (trace w) (clock w) (behead (rng w)) (smtp w)).

Definition random_uniform (a b : Qc) : M Qc :=
  r ← random_random;
  mret (uniform a b r).

(** The range of [time.sleep], in seconds: CPython converts the duration to
    a signed 64-bit count of nanoseconds before anything else. The bounds are
    those of the exact conversion; what rounding does to a [float] next to a
    bound is outside the model, as all rounding is. *)
Definition sleep_max : Qc := Q2Qc (Qmake (2 ^ 63 - 1) (10 ^ 9)).

Definition sleep_min : Qc := Q2Qc (Qmake (- 2 ^ 63) (10 ^ 9)).

(** The error of that conversion. *)
Definition sleep_overflow : PyExn :=
  OverflowError "timestamp too large to convert to C _PyTime_t".

(** The error [time.sleep] raises on a negative duration. *)
Definition sleep_refused : PyExn :=
  ValueError "sleep length must be non-negative".

(** What [time.sleep(secs)] raises, if anything: the conversion to
    nanoseconds comes first and raises outside the range, the sign is tested
    after it. The duration is a rational here, so the [ValueError] for NaN
    has no counterpart. *)
Definition sleep_error (secs : Qc) : option PyExn :=
  if bool_decide (secs < sleep_min)%Qc || bool_decide (sleep_max < secs)%Qc
  then Some sleep_overflow
  else if bool_decide (secs < 0)%Qc then Some sleep_refused
  else None.

(** [time.sleep(secs)] *)
Definition time_sleep (secs : Qc) : M unit :=
  match sleep_error secs with
  | Some e => raise e
  | None => emit (Slept secs)
  end.

Definition two_digits (n : Z) : string :=
  (if bool_decide (n < 10)%Z then "0" else "") +:+ pretty n.

(** The hundredths nearest to [|q|], ties to the even one. *)
Definition round_hundredths (q : Qc) : Z :=
  let x := (Z.abs (Qnum q) * 100)%Z in
  let d := Z.pos (Qden q) in
  let k := (x / d)%Z in
  let r := (x mod d)%Z in
  match (2 * r ?= d)%Z with
  | Lt => k
  | Gt => (k + 1)%Z
  | Eq => if Z.even k then k else (k + 1)%Z
  end.

(** [f"{q:.2f}"] *)
Definition fmt_2f (q : Qc) : string :=
  let h := round_hundredths q in
  (if bool_decide (Qnum q < 0)%Z then "-" else "")
  +:+ pretty (h / 100)%Z +:+ "." +:+ two_digits (h mod 100)%Z.

(** ** PyWebView API *)

(** [settings[key] = v] for a value of the form. *)
Definition setitem (key v : string) (s : Settings) : Settings :=
  if bool_decide (key = "smtp_server") then
    mkSettings v (smtp_port s) (sender_email s) (password s) (subject s) (body s)
               (min_delay s) (max_delay s) (receiver_list s)
  else if bool_decide (key = "smtp_port") then
    mkSettings (smtp_server s) (PyStr v) (sender_email s) (password s) (subject s)
               (body s) (min_delay s) (max_delay s) (receiver_list s)
  else if bool_decide (key = "sender_email") then
    mkSettings (smtp_server s) (smtp_port s) v (password s) (subject s) (body s)
               (min_delay s) (max_delay s) (receiver_list s)
  else if bool_decide (key = "password") then
    mkSettings (smtp_server s) (smtp_port s) (sender_email s) v (subject s) (body s)
               (min_delay s) (max_delay s) (receiver_list s)
  else if bool_decide (key = "subject") then
    mkSettings (smtp_server s) (smtp_port s) (sender_email s) (password s) v (body s)
               (min_delay s) (max_delay s) (receiver_list s)
  else if bool_decide (key = "body") then
    mkSettings (smtp_server s) (smtp_port s) (sender_email s) (password s) (subject s)
               v (min_delay s) (max_delay s) (receiver_list s)
  else if bool_decide (key = "min_delay") then
    mkSettings (smtp_server s) (smtp_port s) (sender_email s) (password s) (subject s)
               (body s) (PyStr v) (max_delay s) (receiver_list s)
  else if bool_decide (key = "max_delay") then
    mkSettings (smtp_server s) (smtp_port s) (sender_email s) (password s) (subject s)
               (body s) (min_delay s) (PyStr v) (receiver_list s)
  else s.

Definition set_receiver_list (l : list string) (s : Settings) : Settings :=
  mkSettings (smtp_server s) (smtp_port s) (sender_email s) (password s) (subject s)
             (body s) (min_delay s) (max_delay s) l.

Definition allowed_keys : list string :=
  ["smtp_server"; "smtp_port"; "sender_email"; "password"; "subject"; "body";
   "min_delay"; "max_delay"].

(** [for key in keys: if key in new_settings: settings[key] = new_settings[key]] *)
Fixpoint update_allowed (keys : list string) (new_settings : gmap string string)
  : M unit :=
  match keys with
  | [] => mret tt
  | key :: keys' =>
      match new_settings !! key with
      | Some v => s ← get_settings; set_settings (setitem key v s)
      | None => mret tt
      end;;
      update_allowed keys' new_settings
  end.

(** [API.send_emails] up to the point where it starts the worker thread:
    this is where the configuration of a run is built. [new_settings] is the
    object the form sends, every value of which is a string. *)
Definition API_send_emails (new_settings : gmap string string) : M unit :=
  update_allowed allowed_keys new_settings;;
  let receivers_text := default "" (new_settings !! "receiver_emails") in
  emails ← parse_receivers receivers_text;
  s ← get_settings;
  set_settings (set_receiver_list emails s);;
  log_message ("Loaded " +:+ pretty (length emails) +:+ " receiver emails from textarea.").

(** ** Notions used in the statements *)

(** The trimmed, non-empty pieces of the text, in the order of the text:
    what the loop of [parse_receivers] looks at. *)
Definition entries (text : string) : list string :=
  filter (λ e, str_truthy e = true) (str_strip <$> re_split text).

(** Equal under case-insensitive comparison. *)
Definition caseless (a : string) : string → Prop :=
  λ x, str_lower x = str_lower a.

Global Instance caseless_dec a x : Decision (caseless a x).
Proof. unfold caseless. apply _. Defined.

(** An entry that does not look like an address. *)
Definition suspect (e : string) : Prop := EMAIL_RE_match e = false.

Global Instance suspect_dec e : Decision (suspect e).
Proof. unfold suspect. apply _. Defined.

(** What one trimmed, non-empty piece does to [seen] and [out]. *)
Definition absorb (st : gset string * list string) (e : string)
  : gset string * list string :=
  if bool_decide (str_lower e ∈ st.1) then st
  else ({[str_lower e]} ∪ st.1, st.2 ++ [e]).

(** A world that differs from another one by log lines only. *)
Definition logged (w w' : World) (texts : list string) : Prop :=
  settings w' = settings w ∧ trace w' = trace w ∧ rng w' = rng w ∧
  smtp w' = smtp w ∧
  ∃ new, log w' = log w ++ new ∧ log_text <$> new = texts.

(** The list [parse_receivers] returns, as a function of the text alone. *)
Definition parsed (text : string) : list string :=
  (foldl absorb (∅, []) (entries text)).2.

(** [out] holds, for every key met in the pieces [F] read so far, the first
    piece with that key, and holds them in the order of [F]. *)
Record deduped (F : list string) (st : gset string * list string) : Prop := {
  seen_keys : ∀ k, k ∈ st.1 ↔ k ∈ str_lower <$> st.2;
  keys_nodup : NoDup (str_lower <$> st.2);
  first_seen : ∀ a, a ∈ st.2 → ∃ p, list_find (caseless a) F = Some (p, a);
  in_order : ∀ i j a b p q,
    i < j → st.2 !! i = Some a → st.2 !! j = Some b →
    list_find (caseless a) F = Some (p, a) →
    list_find (caseless b) F = Some (q, b) → p < q;
  all_keys : ∀ e, e ∈ F → str_lower e ∈ str_lower <$> st.2
}.

(** The text of the example: two addresses that differ in case only, a
    third address, and a line that is not an address. *)
Definition example_text : string :=
  "a@b.com, a@B.com; c@d.com" +:+ String newline "bad-entry".

Definition sent_line (total i : nat) (r : string) : string :=
  "Sent to " +:+ r +:+ " (" +:+ pretty i +:+ "/" +:+ pretty total +:+ ")".

Definition failed_line (r : string) (e : PyExn) : string :=
  "Failed to send to " +:+ r +:+ ": " +:+ exn_text e.

Definition outcome_line (total i : nat) (r : string) (o : option PyExn) : string :=
  match o with
  | None => sent_line total i r
  | Some e => failed_line r e
  end.

Definition waiting_line (d : Qc) : string :=
  "Waiting " +:+ fmt_2f d +:+ "s before next email...".

Definition fatal_line (e : PyExn) : string :=
  "Error in send_bulk_emails: " +:+ exn_text e.

(** The message composed for a recipient. *)
Definition message_for (s : Settings) (r : string) : Message :=
  mkMessage (sender_email s) r (subject s) (body s).

Definition submission (s : Settings) (r : string) : Event :=
  SMTP_sendmail (sender_email s) r (message_for s r).

(** The recipients of the submissions in a trace, and the sleeps in it. *)
Definition sent_to (tr : list Event) : list string :=
  omap (λ ev, match ev with SMTP_sendmail _ r _ => Some r | _ => None end) tr.

Definition sleeps (tr : list Event) : list Qc :=
  omap (λ ev, match ev with Slept d => Some d | _ => None end) tr.

(** The upper end of the interval the delay is drawn from. *)
Definition effective_max (mind maxd : Qc) : Qc :=
  if bool_decide (maxd < mind)%Qc then mind else maxd.


(** [s.startswith(p)] *)
Fixpoint starts_with (p s : string) : bool :=
  match p, s with
  | EmptyString, _ => true
  | String a p', String b s' => Ascii.eqb a b && starts_with p' s'
  | String _ _, EmptyString => false
  end.

(** Whether a line reports the error that stopped a run. *)
Definition is_fatal (line : string) : bool :=
  starts_with "Error in send_bulk_emails: " line.

(** Random numbers as [random.random()] returns them. *)
Definition unit_draws (rs : nat → Qc) : Prop := ∀ k, (0 ≤ rs k)%Qc ∧ (rs k < 1)%Qc.

(** The connections opened, the logins attempted and the [quit]s sent in a
    trace. *)
Definition connections (tr : list Event) : list (string * Z) :=
  omap (λ ev, match ev with SMTP_connect h p => Some (h, p) | _ => None end) tr.

Definition logins (tr : list Event) : list (string * string) :=
  omap (λ ev, match ev with SMTP_login u p => Some (u, p) | _ => None end) tr.

Definition quits (tr : list Event) : list unit :=
  omap (λ ev, match ev with SMTP_quit => Some tt | _ => None end) tr.

(** The characters of a text, in order. *)
Definition chars (s : string) : list ascii := list_ascii_of_string s.

(** A text that does not begin, or does not end, with whitespace. *)
Definition starts_solid (s : string) : Prop :=
  match s with
  | EmptyString => True
  | String c _ => isspace c = false
  end.

Definition ends_solid (s : string) : Prop := starts_solid (String.rev s).

(** The words of a regular expression. *)
Inductive matches : regex → string → Prop :=
| matches_eps : matches Eps EmptyString
| matches_cls p c : p c = true → matches (Cls p) (String c EmptyString)
| matches_cat r1 r2 u v :
    matches r1 u → matches r2 v → matches (Cat r1 r2) (u +:+ v)
| matches_alt_l r1 r2 u : matches r1 u → matches (Alt r1 r2) u
| matches_alt_r r1 r2 u : matches r2 u → matches (Alt r1 r2) u
| matches_star_nil r : matches (Star r) EmptyString
| matches_star_cons r u v :
    matches r u → matches (Star r) v → matches (Star r) (u +:+ v).

(** One of the three parts of an address: not empty, and free of ["@"] and
    of whitespace. *)
Definition address_part (x : string) : Prop :=
  x ≠ EmptyString ∧
  Forall (λ c, c ≠ "@"%char ∧ isspace c = false) (chars x).

(** [local@domain.tld] *)
Definition address_shaped (e : string) : Prop :=
  ∃ l d t,
    e = l +:+ "@" +:+ d +:+ "." +:+ t ∧
    address_part l ∧ address_part d ∧ address_part t.

(** What a key of the form does to the settings. *)
Definition store (form : gmap string string) (s : Settings) (key : string)
  : Settings :=
  match form !! key with
  | Some v => setitem key v s
  | None => s
  end.

(** The settings after the form has been read: every allowed key the form
    holds replaces the entry, as the string the form gives. *)
Definition configured (form : gmap string string) (s : Settings) : Settings :=
  mkSettings
    (default (smtp_server s) (form !! "smtp_server"))
    (from_option PyStr (smtp_port s) (form !! "smtp_port"))
    (default (sender_email s) (form !! "sender_email"))
    (default (password s) (form !! "password"))
    (default (subject s) (form !! "subject"))
    (default (body s) (form !! "body"))
    (from_option PyStr (min_delay s) (form !! "min_delay"))
    (from_option PyStr (max_delay s) (form !! "max_delay"))
    (receiver_list s).

(** The text of the recipients the form holds. *)
Definition receivers_text (form : gmap string string) : string :=
  default EmptyString (form !! "receiver_emails").

Definition loaded_line (n : nat) : string :=
  "Loaded " +:+ pretty n +:+ " receiver emails from textarea.".

Section Worker.

(** The built-ins [float] and [int] on a [str]: the number read, or [None]
    where Python raises [ValueError]. A text that [float] reads as NaN or as
    an infinity is outside the model, as these values are. *)
Context (float_of_str : string → option Qc) (int_of_str : string → option Z).

(** Building the message of a recipient and rendering it, which is what the
    [email] package does in lines 85 to 89 and in [msg.as_string()]: [None]
    when the text is produced, the exception otherwise, such as
    [email.errors.HeaderParseError] for a header value in which a line break
    is followed by a header name. *)
Context (composing : Message → option PyExn).

(** [float(v)]; an [int] whose nearest [float] would be an infinity is
    refused. *)
Definition float (v : PyVal) : Result Qc :=
  match v with
  | PyNone =>
      Raised (TypeError "float() argument must be a string or a real number, not 'NoneType'")
  | PyBool b => Ok (if b then 1%Qc else 0%Qc)
  | PyInt z =>
      if bool_decide (Z.abs z < 2 ^ 1024 - 2 ^ 970)%Z then Ok (Q2Qc (inject_Z z))
      else Raised (OverflowError "int too large to convert to float")
  | PyFloat q => Ok q
  | PyStr s =>
      match float_of_str s with
      | Some q => Ok q
      | None => Raised (ValueError ("could not convert string to float: " +:+ repr s))
      end
  end.

(** [int(v)]; a [float] is truncated towards zero. *)
Definition int (v : PyVal) : Result Z :=
  match v with
  | PyNone =>
      Raised (TypeError "int() argument must be a string, a bytes-like object or a real number, not 'NoneType'")
  | PyBool b => Ok (if b then 1%Z else 0%Z)
  | PyInt z => Ok z
  | PyFloat q => Ok (Z.quot (Qnum q) (Z.pos (Qden q)))
  | PyStr s =>
      match int_of_str s with
      | Some z => Ok z
      | None => Raised (ValueError ("invalid literal for int() with base 10: " +:+ repr s))
      end
  end.

(** ** The SMTP session *)

Definition answer (ev : Event) (outcome : option PyExn) : M unit :=
  emit ev;;
  match outcome with
  | None => mret tt
  | Some e => raise e
  end.

Definition with_smtp (t : Transport) : M unit := λ w,
  (Ok tt, mkWorld (settings w) (log w) (trace w) (clock w) (rng w) t).

Definition get_smtp : M Transport := λ w, (Ok (smtp w), w).

(** [smtplib.SMTP(host, port, timeout=30)] *)
Definition smtplib_SMTP (host : string) (port : Z) : M unit :=
  t ← get_smtp;
  answer (SMTP_connect host port) (connect_outcome t).

Definition server_ehlo : M unit :=
  t ← get_smtp;
  with_smtp (mkTransport (connect_outcome t) (behead (ehlo_outcomes t))
               (starttls_outcome t) (login_outcome t) (sendmail_outcomes t)
               (quit_outcome t));;
  answer SMTP_ehlo (ehlo_outcomes t 0).

Definition server_starttls : M unit :=
  t ← get_smtp;
  answer SMTP_starttls (starttls_outcome t).

Definition server_login (user pw : string) : M unit :=
  t ← get_smtp;
  answer (SMTP_login user pw) (login_outcome t).

Definition server_sendmail (from_addr to_addr : string) (msg : Message) : M unit :=
  t ← get_smtp;
  with_smtp (mkTransport (connect_outcome t) (ehlo_outcomes t)
               (starttls_outcome t) (login_outcome t) (behead (sendmail_outcomes t))
               (quit_outcome t));;
  answer (SMTP_sendmail from_addr to_addr msg) (sendmail_outcomes t 0).

Definition server_quit : M unit :=
  t ← get_smtp;
  answer SMTP_quit (quit_outcome t).

(** ** Email sending worker *)

(** [msg.as_string()], for the message built in the lines before it. *)
Definition as_string (msg : Message) : M unit :=
  match composing msg with
  | None => mret tt
  | Some e => raise e
  end.

(** The [try] of the loop body: compose, submit, log. The message is
    rendered while the arguments of [server.sendmail] are evaluated, so an
    error of the rendering comes before the call and no submission takes
    place. *)
Definition send_one (i total : nat) (recipient : string) : M unit :=
  try_except
    (s ← get_settings;
     let msg := mkMessage (sender_email s) recipient (subject s) (body s) in
     s' ← get_settings;
     as_string msg;;
     server_sendmail (sender_email s') recipient msg;;
     log_message ("Sent to " +:+ recipient +:+ " (" +:+ pretty i +:+ "/"
                  +:+ pretty total +:+ ")"))
    (λ e, log_message ("Failed to send to " +:+ recipient +:+ ": " +:+ exn_text e)).

(** The [try] that computes [delay]. *)
Definition draw_delay : M Qc :=
  try_except
    (s ← get_settings;
     mind ← lift (float (min_delay s));
     s' ← get_settings;
     maxd ← lift (float (max_delay s'));
     let maxd := if bool_decide (maxd < mind)%Qc then mind else maxd in
     random_uniform mind maxd)
    (λ _, random_uniform (Q2Qc 2) (Q2Qc 5)).

Definition loop_body (total i : nat) (recipient : string) : M unit :=
  let recipient := str_strip recipient in
  send_one i total recipient;;
  delay ← draw_delay;
  log_message ("Waiting " +:+ fmt_2f delay +:+ "s before next email...");;
  time_sleep delay.

(** [for i, recipient in enumerate(l, start=i): body i recipient] *)
Fixpoint for_enumerate (i : nat) (l : list string) (body : nat → string → M unit)
  : M unit :=
  match l with
  | [] => mret tt
  | recipient :: l' => body i recipient;; for_enumerate (S i) l' body
  end.

Definition send_bulk_emails : M unit :=
  try_except
    (log_message "Connecting to SMTP server...";;
     s ← get_settings;
     port ← lift (int (smtp_port s));
     smtplib_SMTP (smtp_server s) port;;
     server_ehlo;;
     try_pass (server_starttls;; server_ehlo);;
     s ← get_settings;
     server_login (sender_email s) (password s);;
     log_message "Logged in successfully!";;
     s ← get_settings;
     let total := length (receiver_list s) in
     if (total =? 0)%nat then
       log_message "No recipient emails found. Aborting send."
     else
       s ← get_settings;
       for_enumerate 1 (receiver_list s) (loop_body total);;
       try_pass server_quit;;
       log_message "All emails processed.")
    (λ e, log_message ("Error in send_bulk_emails: " +:+ exn_text e)).

(** ** What the worker does, as functions of the world it starts in *)

(** The delay [draw_delay] computes from the settings and the next random
    number. *)
Definition delay_of (s : Settings) (r : Qc) : Qc :=
  match float (min_delay s), float (max_delay s) with
  | Ok mind, Ok maxd =>
      uniform mind (if bool_decide (maxd < mind)%Qc then mind else maxd) r
  | _, _ => uniform (Q2Qc 2) (Q2Qc 5) r
  end.

(** The message of the recipient [r] can be composed. *)
Definition composes (s : Settings) (r : string) : Prop :=
  composing (message_for s (str_strip r)) = None.

Global Instance composes_dec s r : Decision (composes s r).
Proof. unfold composes. apply _. Defined.

(** The line logged for the recipient [r]: the error of composing the
    message, or else what the server, whose answer is [o], made of the
    submission. *)
Definition answer_line (total i : nat) (s : Settings) (r : string)
    (o : option PyExn) : string :=
  match composing (message_for s (str_strip r)) with
  | Some e => failed_line (str_strip r) e
  | None => outcome_line total i (str_strip r) o
  end.

(** The calls of the [try] of the loop body: one submission, or none when
    the message cannot be composed. *)
Definition attempt (s : Settings) (r : string) : list Event :=
  if decide (composes s r) then [submission s (str_strip r)] else [].

(** The answers the server has left after the [try] of the loop body. *)
Definition answers_left (s : Settings) (r : string) (outs : nat → option PyExn)
  : nat → option PyExn :=
  if decide (composes s r) then behead outs else outs.

Definition next_server (s : Settings) (r : string) (t : Transport) : Transport :=
  mkTransport (connect_outcome t) (ehlo_outcomes t) (starttls_outcome t)
              (login_outcome t) (answers_left s r (sendmail_outcomes t))
              (quit_outcome t).

(** How many submissions the first [k] recipients of [l] give rise to: the
    index of the server's answer to the next one. *)
Definition calls_before (s : Settings) (l : list string) (k : nat) : nat :=
  length (filter (composes s) (take k l)).

(** The world after the [try] of the loop body, the draw of the delay [d]
    and the line that announces the wait. *)
Definition before_sleep (total i : nat) (r : string) (d : Qc) (w : World) : World :=
  mkWorld (settings w)
    (log w ++ [mkLog (clock w 0)
                 (answer_line total i (settings w) r (sendmail_outcomes (smtp w) 0));
               mkLog (clock w 1) (waiting_line d)])
    (trace w ++ attempt (settings w) r)
    (behead (behead (clock w))) (behead (rng w))
    (next_server (settings w) r (smtp w)).

(** The world after the loop body has run for [r] and slept for [d]. *)
Definition after_round (total i : nat) (r : string) (d : Qc) (w : World) : World :=
  mkWorld (settings w)
    (log w ++ [mkLog (clock w 0)
                 (answer_line total i (settings w) r (sendmail_outcomes (smtp w) 0));
               mkLog (clock w 1) (waiting_line d)])
    (trace w ++ attempt (settings w) r ++ [Slept d])
    (behead (behead (clock w))) (behead (rng w))
    (next_server (settings w) r (smtp w)).

(** The log lines and the events of the loop over [l], counting from [i], for
    the answers [outs] of the server and the random numbers [rs]. *)
Definition rounds_log (total : nat) (s : Settings) (outs : nat → option PyExn)
    (rs : nat → Qc) (i : nat) (l : list string) : list string :=
  mjoin (imap (λ k r, [answer_line total (i + k) s r (outs (calls_before s l k));
                       waiting_line (delay_of s (rs k))]) l).

Definition rounds_trace (s : Settings) (rs : nat → Qc) (l : list string)
  : list Event :=
  mjoin (imap (λ k r, attempt s r ++ [Slept (delay_of s (rs k))]) l).

(** The delays are ones [time.sleep] accepts: either [min_delay] and
    [max_delay] are numbers, the first not negative and the upper end of the
    interval within the range of [time.sleep], or the conversion of one of
    them raises, and the delay is drawn between 2 and 5 seconds. *)
Definition delays_accepted (s : Settings) : Prop :=
  (∃ mind maxd,
     float (min_delay s) = Ok mind ∧ float (max_delay s) = Ok maxd ∧
     (0 ≤ mind)%Qc ∧ (effective_max mind maxd ≤ sleep_max)%Qc) ∨
  (∃ e, float (min_delay s) = Raised e) ∨
  (∃ e, float (max_delay s) = Raised e).

(** The session can be opened: the port is a number, and the server accepts
    the connection, the first [ehlo] and the login. *)
Definition session_opens (w : World) (port : Z) : Prop :=
  int (smtp_port (settings w)) = Ok port ∧
  connect_outcome (smtp w) = None ∧
  ehlo_outcomes (smtp w) 0 = None ∧
  login_outcome (smtp w) = None.

(** The calls up to the login; [ehlo] is repeated when [starttls] succeeds. *)
Definition handshake (w : World) (port : Z) : list Event :=
  [SMTP_connect (smtp_server (settings w)) port; SMTP_ehlo; SMTP_starttls]
  ++ (if starttls_outcome (smtp w) is None then [SMTP_ehlo] else [])
  ++ [SMTP_login (sender_email (settings w)) (password (settings w))].

(** The loop stops at the recipient of index [m]: the delay drawn after it
    is the first one [time.sleep] refuses, with the error [e]. *)
Definition loop_stops (s : Settings) (rs : nat → Qc) (m : nat) (e : PyExn) : Prop :=
  sleep_error (delay_of s (rs m)) = Some e ∧
  ∀ k, k < m → sleep_error (delay_of s (rs k)) = None.

End Worker.



(** ** Concrete platforms and worlds for the examples *)

Definition digit_of (c : ascii) : option Z :=
  let n := code c in
  if ((48 <=? n) && (n <=? 57))%nat then Some (Z.of_nat (n - 48)) else None.

Fixpoint digits_go (acc : Z) (s : string) : option Z :=
  match s with
  | EmptyString => Some acc
  | String c s' =>
      match digit_of c with
      | Some d => digits_go (10 * acc + d) s'
      | None => None
      end
  end.

(** Reads a string of decimal digits as Python does; declines every other
    string, so it is only used on such strings. *)
Definition digits (s : string) : option Z :=
  if str_truthy s then digits_go 0 s else None.

Definition digits_float (s : string) : option Qc :=
  (λ z, Q2Qc (inject_Z z)) <$> digits s.

(** A server that accepts everything. *)
Definition willing : Transport :=
  mkTransport None (λ _, None) None None (λ _, None) None.

Definition noon : nat → string := λ _, "2025-01-01 12:00:00".

Definition halves : nat → Qc := λ _, Q2Qc (1 # 2).

(** The program just loaded, in front of a willing server. *)
Definition idle : World := mkWorld default_settings [] [] noon halves willing.

Definition no_such_user : PyExn :=
  mkExn "SMTPRecipientsRefused" "{'d@e.f': (550, b'No such user')}".

(** A server that refuses the second submission and accepts the rest. *)
Definition refuses_second : Transport :=
  mkTransport None (λ _, None) None None
    (λ k, if (k =? 1)%nat then Some no_such_user else None) None.

Definition three_recipients (mind maxd : PyVal) : Settings :=
  mkSettings "smtp.gmail.com" (PyInt 587) "me@example.com" "app password"
    "Hello" "<html>Hello</html>" mind maxd ["a@b.c"; "d@e.f"; "g@h.i"].

Definition three_world : World :=
  mkWorld (three_recipients (PyInt 2) (PyInt 5)) [] [] noon halves refuses_second.

(** The same batch with a [min_delay] that is no number. *)
Definition garbled : World :=
  mkWorld (three_recipients (PyStr "soon") (PyStr "5")) [] [] noon halves
    refuses_second.

(** The same batch with a maximum below the minimum. *)
Definition swapped : World :=
  mkWorld (three_recipients (PyStr "5") (PyStr "2")) [] [] noon halves
    refuses_second.

Definition bad_credentials : PyExn :=
  mkExn "SMTPAuthenticationError"
    "(535, b'5.7.8 Username and Password not accepted.')".

(** A server that refuses the login. *)
Definition locked_out : World :=
  mkWorld (three_recipients (PyInt 2) (PyInt 5)) [] [] noon halves
    (mkTransport None (λ _, None) None (Some bad_credentials) (λ _, None) None).

(** A rendering that refuses a message one of whose headers holds a line
    feed, as [as_string] does when a header name follows the line feed, and
    produces every other message; it is only used on headers of these two
    kinds. *)
Definition embedded_header (h : string) : PyExn :=
  mkExn "HeaderParseError"
    ("header value appears to contain an embedded header: " +:+ repr h).

Definition plain_headers (msg : Message) : option PyExn :=
  match filter (λ h, has_char newline h = true)
          [msg_From msg; msg_To msg; msg_Subject msg] with
  | h :: _ => Some (embedded_header h)
  | [] => None
  end.




(** The batch of three with a subject that carries a second header. *)
Definition smuggled : World :=
  mkWorld (mkSettings "smtp.gmail.com" (PyInt 587) "me@example.com" "app password"
             ("Hi" +:+ String newline "Bcc: x@y.z") "<html>Hello</html>"
             (PyInt 2) (PyInt 5) ["a@b.c"; "d@e.f"; "g@h.i"])
          [] [] noon halves willing.

(** The batch of three with a wait of ten thousand million seconds. *)
Definition patient : World :=
  mkWorld (three_recipients (PyStr "10000000000") (PyStr "10000000000")) [] []
    noon halves refuses_second.

(** What the form sends when the user asks for a minimum of 5 and a maximum
    of 2 seconds. *)
Definition swapped_delays : gmap string string :=
  {[ "min_delay" := "5"; "max_delay" := "2" ]}.

(** The form was sent with the port left blank. *)
Definition blank_port : World :=
  mkWorld (mkSettings "smtp.gmail.com" (PyStr EmptyString) "me@example.com"
             "app password" "Hello" "<html>Hello</html>" (PyInt 2) (PyInt 5)
             ["a@b.c"])
          [] [] noon halves willing.

Definition connection_refused : PyExn :=
  mkExn "ConnectionRefusedError" "[Errno 111] Connection refused".

(** Nobody listens at the address of the server. *)
Definition unreachable : World :=
  mkWorld (three_recipients (PyInt 2) (PyInt 5)) [] [] noon halves
    (mkTransport (Some connection_refused) (λ _, None) None None (λ _, None) None).

(** The batch of three with delays below zero. *)
Definition hasty : World :=
  mkWorld (three_recipients (PyInt (-1)) (PyInt (-1))) [] [] noon halves
    refuses_second.

(** Nothing but separators and blanks. *)
Definition blank_text : string :=
  " , ;" +:+ String newline "  ;".

(** A form that holds the sender and the recipients of the example. *)
Definition example_form : gmap string string :=
  {[ "sender_email" := "me@example.com"; "receiver_emails" := example_text ]}.

(** * Properties *)

(** ** The monad *)

Lemma bind_run {A B} (m : M A) (f : A → M B) (w : World) :
  (m ≫= f) w = match m w with
               | (Ok a, w') => f a w'
               | (Raised e, w') => (Raised e, w')
               end.
Proof. reflexivity. Qed.

Lemma bind_ok {A B} (m : M A) (f : A → M B) (w w' : World) (a : A) :
  m w = (Ok a, w') → (m ≫= f) w = f a w'.
Proof. intros H. rewrite bind_run, H. reflexivity. Qed.

Lemma bind_raised {A B} (m : M A) (f : A → M B) (w w' : World) (e : PyExn) :
  m w = (Raised e, w') → (m ≫= f) w = (Raised e, w').
Proof. intros H. rewrite bind_run, H. reflexivity. Qed.

Lemma log_message_run (msg : string) (w : World) :
  log_message msg w =
  (Ok tt, mkWorld (settings w) (log w ++ [mkLog (clock w 0) msg]) (trace w)
                  (behead (clock w)) (rng w) (smtp w)).
Proof. reflexivity. Qed.

Ltac unfold_monad :=
  cbv [mbind M_bind mret M_ret try_except try_pass get_settings set_settings
       emit raise lift get_smtp log_message timestamp print].

(** ** The recipient parser *)

Section Parser_facts.

Implicit Types (seen : gset string) (out parts : list string) (w : World).

Lemma logged_refl w : logged w w [].
Proof. repeat split. exists []. by rewrite app_nil_r. Qed.

Lemma logged_trans w1 w2 w3 t1 t2 :
  logged w1 w2 t1 → logged w2 w3 t2 → logged w1 w3 (t1 ++ t2).
Proof.
  intros (?&?&?&?&n1&L1&T1) (?&?&?&?&n2&L2&T2).
  repeat split; try congruence.
  exists (n1 ++ n2). rewrite L2, L1, <- app_assoc, fmap_app. by rewrite T1, T2.
Qed.

Lemma parse_step_skip p seen out w :
  str_truthy (str_strip p) = false →
  parse_step p (seen, out) w = (Ok (seen, out), w).
Proof. intros H. unfold parse_step. by rewrite H. Qed.

Lemma parse_step_run p seen out w :
  str_truthy (str_strip p) = true →
  ∃ seen' added w',
    parse_step p (seen, out) w = (Ok (seen', out ++ added), w') ∧
    absorb (seen, out) (str_strip p) = (seen', out ++ added) ∧
    logged w w' (warning_text <$> filter suspect added).
Proof.
  intros H. unfold parse_step, absorb. rewrite H. cbn [negb fst snd].
  destruct (EMAIL_RE_match (str_strip p)) eqn:Hm;
    destruct (bool_decide (str_lower (str_strip p) ∈ seen)) eqn:Hs.
  - exists seen, [], w. rewrite app_nil_r. auto using logged_refl.
  - exists ({[str_lower (str_strip p)]} ∪ seen), [str_strip p], w.
    split; [done|]. split; [done|].
    rewrite filter_cons_False, filter_nil by (unfold suspect; congruence).
    apply logged_refl.
  - exists seen, [], w. rewrite app_nil_r. auto using logged_refl.
  - eexists ({[str_lower (str_strip p)]} ∪ seen), [str_strip p], _.
    split; [reflexivity|]. split; [done|].
    rewrite filter_cons_True, filter_nil by done.
    repeat split. by eexists [_].
Qed.

Lemma entries_of_cons_skip p parts :
  str_truthy (str_strip p) = false →
  filter (λ e, str_truthy e = true) (str_strip <$> p :: parts)
  = filter (λ e, str_truthy e = true) (str_strip <$> parts).
Proof. intros H. rewrite fmap_cons, filter_cons_False; [done|congruence]. Qed.

Lemma entries_of_cons_keep p parts :
  str_truthy (str_strip p) = true →
  filter (λ e, str_truthy e = true) (str_strip <$> p :: parts)
  = str_strip p :: filter (λ e, str_truthy e = true) (str_strip <$> parts).
Proof. intros H. by rewrite fmap_cons, filter_cons_True. Qed.

(** The loop never raises; it returns what [absorb] makes of the trimmed,
    non-empty pieces, and logs one warning for every suspect entry it added. *)
Lemma parse_loop_run parts : ∀ seen out w,
  ∃ seen' added w',
    parse_loop parts (seen, out) w = (Ok (seen', out ++ added), w') ∧
    foldl absorb (seen, out)
          (filter (λ e, str_truthy e = true) (str_strip <$> parts))
    = (seen', out ++ added) ∧
    logged w w' (warning_text <$> filter suspect added).
Proof.
  induction parts as [|p parts IH]; intros seen out w.
  - exists seen, [], w. rewrite app_nil_r. cbn. auto using logged_refl.
  - cbn [parse_loop]. destruct (str_truthy (str_strip p)) eqn:Hp.
    + destruct (parse_step_run p seen out w Hp) as (s1&a1&w1&R1&A1&L1).
      destruct (IH s1 (out ++ a1) w1) as (s2&a2&w2&R2&A2&L2).
      exists s2, (a1 ++ a2), w2.
      rewrite (bind_ok _ _ _ _ _ R1), R2, entries_of_cons_keep by done.
      cbn [foldl]. rewrite A1, A2, app_assoc. split; [done|]. split; [done|].
      rewrite filter_app, fmap_app. eauto using logged_trans.
    + destruct (IH seen out w) as (s2&a2&w2&R2&A2&L2).
      exists s2, a2, w2.
      rewrite (bind_ok _ _ _ _ _ (parse_step_skip p seen out w Hp)), R2.
      by rewrite entries_of_cons_skip.
Qed.

Lemma entries_empty text : str_truthy text = false → entries text = [].
Proof. destruct text; [reflexivity|discriminate]. Qed.

Lemma parse_receivers_run text w :
  ∃ w', parse_receivers text w = (Ok (parsed text), w') ∧
        logged w w' (warning_text <$> filter suspect (parsed text)).
Proof.
  unfold parse_receivers, parsed. destruct (str_truthy text) eqn:Ht; cbn [negb].
  - destruct (parse_loop_run (re_split text) ∅ [] w) as (s&a&w'&R&A&L).
    exists w'. rewrite (bind_ok _ _ _ _ _ R). unfold entries. rewrite A.
    cbn. auto.
  - exists w. rewrite entries_empty by done. cbn. auto using logged_refl.
Qed.

(** *** Order and duplicates *)

Lemma deduped_start : deduped [] (∅, []).
Proof.
  split; cbn.
  - intros k. set_solver.
  - constructor.
  - intros a Ha. by apply elem_of_nil in Ha.
  - intros i j a b p q _ H. by rewrite lookup_nil in H.
  - intros e He. by apply elem_of_nil in He.
Qed.

Lemma find_fresh F e out :
  (∀ x, x ∈ F → str_lower x ∈ str_lower <$> out) →
  str_lower e ∉ str_lower <$> out →
  list_find (caseless e) (F ++ [e]) = Some (length F, e).
Proof.
  intros Hall Hnew. apply list_find_Some. split_and!.
  - by rewrite lookup_app_r, Nat.sub_diag.
  - done.
  - intros j y Hj Hlt Hy. rewrite lookup_app_l in Hj by done.
    apply Hnew. rewrite <- Hy. apply Hall. by eapply list_elem_of_lookup_2.
Qed.

Lemma deduped_step F st e : deduped F st → deduped (F ++ [e]) (absorb st e).
Proof.
  destruct st as [seen out]. intros [Hseen Hnd Hfirst Hord Hall].
  cbn [fst snd] in *. unfold absorb. cbn [fst snd].
  assert (Hold : ∀ a p, a ∈ out →
            list_find (caseless a) (F ++ [e]) = Some (p, a) →
            list_find (caseless a) F = Some (p, a)).
  { intros a p Ha Hf. destruct (Hfirst a Ha) as [p' Hp'].
    rewrite (list_find_app_l _ _ _ _ _ Hp') in Hf. congruence. }
  case_bool_decide as Hin.
  - split; cbn [fst snd]; try done.
    + intros a Ha. destruct (Hfirst a Ha) as [p Hp]. exists p.
      by apply list_find_app_l.
    + intros i j a b p q Hij Ha Hb Hfa Hfb.
      eapply (Hord i j a b); eauto using list_elem_of_lookup_2.
    + intros x [Hx|Hx%list_elem_of_singleton]%elem_of_app; [by apply Hall|].
      subst x. by apply Hseen.
  - assert (Hnew : str_lower e ∉ str_lower <$> out) by (by rewrite <- Hseen).
    split; cbn [fst snd].
    + intros k. rewrite fmap_app, elem_of_app, elem_of_union, Hseen. cbn.
      rewrite elem_of_singleton, list_elem_of_singleton. tauto.
    + rewrite fmap_app. apply NoDup_app. split_and!; [done| |apply NoDup_singleton].
      intros k Hk Hk'%list_elem_of_singleton. by subst k.
    + intros a [Ha|Ha%list_elem_of_singleton]%elem_of_app.
      * destruct (Hfirst a Ha) as [p Hp]. exists p. by apply list_find_app_l.
      * subst a. exists (length F). by eapply find_fresh.
    + intros i j a b p q Hij Ha Hb Hfa Hfb.
      apply lookup_app_Some in Hb as [Hb|[Hlen Hb]].
      * assert (i < length out) by (apply lookup_lt_Some in Hb; lia).
        rewrite lookup_app_l in Ha by done.
        eapply (Hord i j a b); eauto using list_elem_of_lookup_2.
      * assert (j = length out ∧ b = e) as [-> ->].
        { apply list_lookup_singleton_Some in Hb as [? ->]. split; [lia|done]. }
        rewrite lookup_app_l in Ha by lia.
        rewrite (find_fresh F e out Hall Hnew) in Hfb.
        apply Hold in Hfa; [|by eapply list_elem_of_lookup_2].
        apply list_find_Some in Hfa as [Hp _]. apply lookup_lt_Some in Hp.
        congruence || (injection Hfb as <-; lia).
    + intros x Hx. rewrite fmap_app, elem_of_app.
      apply elem_of_app in Hx as [Hx|Hx%list_elem_of_singleton]; [by left; apply Hall|].
      subst x. right. cbn. by apply list_elem_of_singleton.
Qed.

Lemma deduped_foldl es : ∀ F st,
  deduped F st → deduped (F ++ es) (foldl absorb st es).
Proof.
  induction es as [|e es IH]; intros F st H; cbn [foldl].
  - by rewrite app_nil_r.
  - replace (F ++ e :: es) with ((F ++ [e]) ++ es) by (by rewrite <- app_assoc).
    by apply IH, deduped_step.
Qed.

Lemma parsed_deduped text :
  deduped (entries text) (foldl absorb (∅, []) (entries text)).
Proof. apply (deduped_foldl (entries text) [] (∅, [])), deduped_start. Qed.

(** C5. For every text, the list [parse_receivers] returns has no two
    entries that are equal under case-insensitive comparison; every entry is
    the first of the trimmed, non-empty pieces of the text that is equal to
    it in that sense, entries stand in the order in which those first pieces
    stand in the text, and every piece is represented. *)
Theorem parse_receivers_unique_in_first_seen_order (text : string) (w : World) :
  ∃ out w',
    parse_receivers text w = (Ok out, w') ∧
    NoDup (str_lower <$> out) ∧
    (∀ a, a ∈ out → ∃ p, list_find (caseless a) (entries text) = Some (p, a)) ∧
    (∀ i j a b p q,
       i < j → out !! i = Some a → out !! j = Some b →
       list_find (caseless a) (entries text) = Some (p, a) →
       list_find (caseless b) (entries text) = Some (q, b) → p < q) ∧
    (∀ e, e ∈ entries text → str_lower e ∈ str_lower <$> out).
Proof.
  destruct (parse_receivers_run text w) as (w'&R&_).
  destruct (parsed_deduped text) as [_ Hnd Hfirst Hord Hall].
  exists (parsed text), w'. unfold parsed. by split_and!.
Qed.

(** C7, as the code has it. On the example text [parse_receivers] returns
    the strings ["a@b.com"], ["c@d.com"] and ["bad-entry"], in this order:
    ["bad-entry"] is kept. The entries carry no mark; what tells the suspect
    entry from the others is the one line the call adds to the log, the
    warning about ["bad-entry"], and nothing else is changed. *)
Theorem parse_receivers_example (w : World) :
  ∃ w',
    parse_receivers example_text w
    = (Ok ["a@b.com"; "c@d.com"; "bad-entry"], w') ∧
    log w' = log w ++ [mkLog (clock w 0) (warning_text "bad-entry")] ∧
    settings w' = settings w ∧ trace w' = trace w.
Proof. eexists. split_and!; reflexivity. Qed.

(** C8, as the code has it. The list [parse_receivers] returns depends on
    the text alone, and the call touches neither the settings nor the
    network nor the random generator; but it is not free of effects: it logs
    one warning for every entry of its result that does not look like an
    address, so it leaves the log as it was only when there is no such
    entry. *)
Theorem parse_receivers_only_logs_warnings (text : string) :
  ∃ out, ∀ w,
    ∃ w' new,
      parse_receivers text w = (Ok out, w') ∧
      settings w' = settings w ∧ trace w' = trace w ∧
      rng w' = rng w ∧ smtp w' = smtp w ∧
      log w' = log w ++ new ∧
      log_text <$> new = warning_text <$> filter suspect out.
Proof.
  exists (parsed text). intros w.
  destruct (parse_receivers_run text w) as (w'&R&Hs&Ht&Hr&Hm&new&Hl&Hn).
  by exists w', new.
Qed.

End Parser_facts.

(** ** The worker *)

Section Worker_facts.

Context (float_of_str : string → option Qc) (int_of_str : string → option Z)
        (composing : Message → option PyExn).

Local Abbreviation float := (float float_of_str).
Local Abbreviation int := (int int_of_str).
Local Abbreviation draw_delay := (draw_delay float_of_str).
Local Abbreviation as_string := (as_string composing).
Local Abbreviation send_one := (send_one composing).
Local Abbreviation loop_body := (loop_body float_of_str composing).
Local Abbreviation send_bulk_emails :=
  (send_bulk_emails float_of_str int_of_str composing).
Local Abbreviation delay_of := (delay_of float_of_str).
Local Abbreviation composes := (composes composing).
Local Abbreviation answer_line := (answer_line composing).
Local Abbreviation attempt := (attempt composing).
Local Abbreviation answers_left := (answers_left composing).
Local Abbreviation next_server := (next_server composing).
Local Abbreviation calls_before := (calls_before composing).
Local Abbreviation before_sleep := (before_sleep composing).
Local Abbreviation after_round := (after_round composing).
Local Abbreviation rounds_log := (rounds_log float_of_str composing).
Local Abbreviation rounds_trace := (rounds_trace float_of_str composing).
Local Abbreviation delays_accepted := (delays_accepted float_of_str).
Local Abbreviation session_opens := (session_opens int_of_str).
Local Abbreviation loop_stops := (loop_stops float_of_str).

Lemma draw_delay_run w :
  draw_delay w =
  (Ok (delay_of (settings w) (rng w 0)),
   mkWorld (settings w) (log w) (trace w) (clock w) (behead (rng w)) (smtp w)).
Proof.
  unfold delay_of, draw_delay, random_uniform, random_random.
  unfold_monad.
  destruct (float (min_delay (settings w))) as [a|e]; [|reflexivity].
  destruct (float (max_delay (settings w))) as [b|e]; reflexivity.
Qed.

(** The [try] of the loop body never raises: it logs one line, and it has
    called [sendmail] exactly when the message could be composed. *)
Lemma send_one_run total i r w :
  send_one i total (str_strip r) w
  = (Ok tt,
     mkWorld (settings w)
       (log w ++ [mkLog (clock w 0)
                    (answer_line total i (settings w) r (sendmail_outcomes (smtp w) 0))])
       (trace w ++ attempt (settings w) r)
       (behead (clock w)) (rng w) (next_server (settings w) r (smtp w))).
Proof.
  unfold answer_line, attempt, next_server, answers_left.
  destruct (decide (composes (settings w) r)) as [Hc|Hc];
    unfold composes, message_for in Hc;
    unfold send_one, as_string, server_sendmail, answer, with_smtp, message_for;
    unfold_monad; cbn [settings smtp log trace clock rng].
  - rewrite Hc. destruct (sendmail_outcomes (smtp w) 0); reflexivity.
  - destruct (composing _) as [e|]; [|done].
    rewrite app_nil_r. by destruct (smtp w).
Qed.

Lemma loop_body_before_sleep total i r w :
  loop_body total i r w
  = time_sleep (delay_of (settings w) (rng w 0))
      (before_sleep total i r (delay_of (settings w) (rng w 0)) w).
Proof.
  unfold loop_body. rewrite bind_run, send_one_run, bind_run, draw_delay_run.
  cbn [settings rng]. rewrite bind_run, log_message_run.
  unfold before_sleep. cbn [settings smtp log trace clock rng].
  by rewrite <- !app_assoc.
Qed.

Lemma loop_body_run total i r w :
  sleep_error (delay_of (settings w) (rng w 0)) = None →
  loop_body total i r w
  = (Ok tt, after_round total i r (delay_of (settings w) (rng w 0)) w).
Proof.
  intros Hd. rewrite loop_body_before_sleep. unfold time_sleep. rewrite Hd.
  unfold emit, before_sleep, after_round. cbn [settings smtp log trace clock rng].
  by rewrite <- !app_assoc.
Qed.

Lemma loop_body_refused_run total i r w e :
  sleep_error (delay_of (settings w) (rng w 0)) = Some e →
  loop_body total i r w
  = (Raised e, before_sleep total i r (delay_of (settings w) (rng w 0)) w).
Proof.
  intros Hd. rewrite loop_body_before_sleep. unfold time_sleep. by rewrite Hd.
Qed.

Lemma answers_left_shift s r l k (outs : nat → option PyExn) :
  answers_left s r outs (calls_before s l k) = outs (calls_before s (r :: l) (S k)).
Proof.
  unfold answers_left, calls_before. cbn [take]. rewrite filter_cons.
  by case_decide.
Qed.

Lemma rounds_log_cons total s outs rs i r l :
  rounds_log total s outs rs i (r :: l)
  = [answer_line total i s r (outs 0); waiting_line (delay_of s (rs 0))]
    ++ rounds_log total s (answers_left s r outs) (behead rs) (S i) l.
Proof.
  unfold rounds_log. rewrite imap_cons. cbn [mjoin list_join].
  rewrite Nat.add_0_r. do 2 f_equal. apply imap_ext. intros k x _. cbn.
  by rewrite answers_left_shift, Nat.add_succ_r.
Qed.

Lemma rounds_trace_cons s rs r l :
  rounds_trace s rs (r :: l)
  = (attempt s r ++ [Slept (delay_of s (rs 0))]) ++ rounds_trace s (behead rs) l.
Proof. unfold rounds_trace. by rewrite imap_cons. Qed.

(** If every delay drawn is one [time.sleep] accepts, the loop runs through
    the whole list, whatever composing the messages and the server make of
    the recipients. *)
Lemma for_enumerate_run total l : ∀ i w,
  (∀ k, k < length l → sleep_error (delay_of (settings w) (rng w k)) = None) →
  ∃ w' new,
    for_enumerate i l (loop_body total) w = (Ok tt, w') ∧
    settings w' = settings w ∧
    log w' = log w ++ new ∧
    log_text <$> new
    = rounds_log total (settings w) (sendmail_outcomes (smtp w)) (rng w) i l ∧
    trace w' = trace w ++ rounds_trace (settings w) (rng w) l.
Proof.
  induction l as [|r l IH]; intros i w Hd.
  - exists w, []. cbn. by rewrite !app_nil_r.
  - cbn [for_enumerate]. rewrite bind_run, loop_body_run by (apply Hd; cbn; lia).
    set (w1 := after_round _ _ _ _ _).
    destruct (IH (S i) w1) as (w'&new&R&Hs&Hl&Ht&Htr).
    { intros k Hk. apply (Hd (S k)). cbn. lia. }
    exists w', ([mkLog (clock w 0)
                   (answer_line total i (settings w) r (sendmail_outcomes (smtp w) 0));
                 mkLog (clock w 1) (waiting_line (delay_of (settings w) (rng w 0)))]
                ++ new).
    rewrite R, Hs, Hl, Htr, rounds_log_cons, rounds_trace_cons, fmap_app, Ht.
    subst w1. cbn [after_round settings log trace rng smtp next_server
                   sendmail_outcomes].
    by rewrite <- !app_assoc.
Qed.

(** *** Delays *)

Lemma uniform_same (a r : Qc) : uniform a a r = a.
Proof. unfold uniform. ring. Qed.

Lemma uniform_ge (a b r : Qc) : (a ≤ b → 0 ≤ r → a ≤ uniform a b r)%Qc.
Proof.
  intros Hab Hr. unfold uniform.
  rewrite <- (Qcplus_0_r a) at 1. apply Qcplus_le_mono_l.
  apply Qcmult_nonneg_nonneg; [|done].
  unfold Qcminus. by apply (proj1 (Qcle_minus_iff a b)).
Qed.

Lemma uniform_le (a b r : Qc) : (a ≤ b → r ≤ 1 → uniform a b r ≤ b)%Qc.
Proof.
  intros Hab Hr. unfold uniform.
  apply (proj2 (Qcle_minus_iff _ b)).
  replace (b + - (a + (b - a) * r))%Qc with ((b - a) * (1 - r))%Qc by ring.
  apply Qcmult_nonneg_nonneg; unfold Qcminus.
  - by apply (proj1 (Qcle_minus_iff a b)).
  - by apply (proj1 (Qcle_minus_iff r 1)).
Qed.

Lemma two_le_five : (Q2Qc 2 ≤ Q2Qc 5)%Qc.
Proof. discriminate. Qed.

Lemma zero_le_two : (0 ≤ Q2Qc 2)%Qc.
Proof. discriminate. Qed.

Lemma five_le_sleep_max : (Q2Qc 5 ≤ sleep_max)%Qc.
Proof. vm_compute. discriminate. Qed.

Lemma sleep_min_negative : (sleep_min < 0)%Qc.
Proof. reflexivity. Qed.

Lemma effective_max_ge mind maxd : (mind ≤ effective_max mind maxd)%Qc.
Proof.
  unfold effective_max. case_bool_decide as H; [done|]. by apply Qcnot_lt_le.
Qed.

(** [time.sleep] takes every duration from 0 to [sleep_max]. *)
Lemma sleep_error_accepts d :
  (0 ≤ d)%Qc → (d ≤ sleep_max)%Qc → sleep_error d = None.
Proof.
  intros H0 Hmax. unfold sleep_error.
  rewrite (bool_decide_eq_false_2 (d < sleep_min)%Qc).
  2:{ apply Qcle_not_lt. etrans; [|exact H0]. apply Qclt_le_weak, sleep_min_negative. }
  rewrite (bool_decide_eq_false_2 (sleep_max < d)%Qc) by (by apply Qcle_not_lt).
  cbn. by rewrite bool_decide_eq_false_2 by (by apply Qcle_not_lt).
Qed.

(** A negative duration within the range is refused for its sign, and one
    outside the range for its size. *)
Lemma sleep_error_negative d :
  (sleep_min ≤ d)%Qc → (d < 0)%Qc → sleep_error d = Some sleep_refused.
Proof.
  intros Hmin Hneg. unfold sleep_error.
  rewrite (bool_decide_eq_false_2 (d < sleep_min)%Qc) by (by apply Qcle_not_lt).
  rewrite (bool_decide_eq_false_2 (sleep_max < d)%Qc).
  2:{ apply Qcle_not_lt. etrans; [apply Qclt_le_weak, Hneg|]. by vm_compute. }
  cbn. by rewrite bool_decide_eq_true_2.
Qed.

Lemma sleep_error_too_long d :
  (sleep_max < d)%Qc → sleep_error d = Some sleep_overflow.
Proof.
  intros H. unfold sleep_error.
  rewrite (bool_decide_eq_true_2 (sleep_max < d)%Qc) by done.
  by rewrite orb_true_r.
Qed.

Lemma sleep_error_too_short d :
  (d < sleep_min)%Qc → sleep_error d = Some sleep_overflow.
Proof.
  intros H. unfold sleep_error.
  by rewrite (bool_decide_eq_true_2 (d < sleep_min)%Qc).
Qed.

Lemma delay_of_numbers s r mind maxd :
  float (min_delay s) = Ok mind → float (max_delay s) = Ok maxd →
  delay_of s r = uniform mind (effective_max mind maxd) r.
Proof. intros Ha Hb. unfold delay_of. by rewrite Ha, Hb. Qed.

Lemma delay_of_fallback s r :
  (∃ e, float (min_delay s) = Raised e) ∨ (∃ e, float (max_delay s) = Raised e) →
  delay_of s r = uniform (Q2Qc 2) (Q2Qc 5) r.
Proof.
  unfold delay_of. intros [[e H]|[e H]]; rewrite H; [done|].
  by destruct (float (min_delay s)).
Qed.

Lemma fallback_accepted r :
  (0 ≤ r)%Qc → (r < 1)%Qc → sleep_error (uniform (Q2Qc 2) (Q2Qc 5) r) = None.
Proof.
  intros H0 H1. apply sleep_error_accepts.
  - etrans; [exact zero_le_two|]. by apply (uniform_ge _ _ r two_le_five).
  - etrans; [|exact five_le_sleep_max].
    apply (uniform_le _ _ r two_le_five). by apply Qclt_le_weak.
Qed.

Lemma delay_of_accepted s r :
  delays_accepted s → (0 ≤ r)%Qc → (r < 1)%Qc → sleep_error (delay_of s r) = None.
Proof.
  intros [(a&b&Ha&Hb&Hpos&Hmax)|Hbad] H0 H1.
  - rewrite (delay_of_numbers s r a b Ha Hb). apply sleep_error_accepts.
    + etrans; [exact Hpos|]. apply uniform_ge; [apply effective_max_ge|done].
    + etrans; [|exact Hmax].
      apply uniform_le; [apply effective_max_ge|by apply Qclt_le_weak].
  - rewrite delay_of_fallback by done. by apply fallback_accepted.
Qed.

Ltac fields :=
  cbn [settings smtp log trace clock rng connect_outcome ehlo_outcomes
       starttls_outcome login_outcome sendmail_outcomes quit_outcome behead].

Ltac unfold_session :=
  unfold send_bulk_emails, smtplib_SMTP, server_ehlo, server_starttls,
    server_login, server_quit, answer, with_smtp;
  unfold_monad; fields.

Lemma run_batch w port :
  session_opens w port →
  receiver_list (settings w) ≠ [] →
  (∀ k, k < length (receiver_list (settings w)) →
        sleep_error (delay_of (settings w) (rng w k)) = None) →
  ∃ w' new,
    send_bulk_emails w = (Ok tt, w') ∧
    log w' = log w ++ new ∧
    log_text <$> new
    = ["Connecting to SMTP server..."; "Logged in successfully!"]
      ++ rounds_log (length (receiver_list (settings w))) (settings w)
           (sendmail_outcomes (smtp w)) (rng w) 1 (receiver_list (settings w))
      ++ ["All emails processed."] ∧
    trace w' = trace w ++ handshake w port
               ++ rounds_trace (settings w) (rng w) (receiver_list (settings w))
               ++ [SMTP_quit].
Proof.
  intros (Hport&Hconn&Hehlo&Hlogin) Hne Hd.
  destruct (receiver_list (settings w)) as [|r0 l0] eqn:Hl; [done|].
  set (l := r0 :: l0) in *.
  unfold_session. rewrite Hport, Hconn. fields. rewrite Hehlo. fields.
  destruct (starttls_outcome (smtp w)) as [e1|] eqn:Htls; fields;
    [|destruct (behead (ehlo_outcomes (smtp w)) 0) as [e2|]; fields];
    rewrite Hlogin; fields; rewrite Hl;
    change (length l =? 0)%nat with false; fields; rewrite Hl.
  all: match goal with
       | |- context [for_enumerate 1 ?L _ ?W] =>
           destruct (for_enumerate_run (length L) L 1 W)
             as (w'&new&R&Hs&Hlog&Htxt&Htr); [exact Hd|]
       end.
  all: rewrite R; fields; revert Hlog Htxt Htr; fields; intros Hlog Htxt Htr.
  all: destruct (quit_outcome (smtp w')); fields.
  all: eexists _, ([_; _] ++ new ++ [_]); split; [reflexivity|]; fields.
  all: rewrite Hlog, Htr, !fmap_app, Htxt; unfold handshake; rewrite Htls.
  all: by rewrite <- !app_assoc.
Qed.

(** *** What a trace says *)

Lemma sent_to_app t1 t2 : sent_to (t1 ++ t2) = sent_to t1 ++ sent_to t2.
Proof. apply omap_app. Qed.

Lemma sleeps_app t1 t2 : sleeps (t1 ++ t2) = sleeps t1 ++ sleeps t2.
Proof. apply omap_app. Qed.

Lemma sent_to_handshake w port : sent_to (handshake w port) = [].
Proof. unfold handshake. by destruct (starttls_outcome (smtp w)). Qed.

Lemma sleeps_handshake w port : sleeps (handshake w port) = [].
Proof. unfold handshake. by destruct (starttls_outcome (smtp w)). Qed.

Lemma sent_to_attempt s r :
  sent_to (attempt s r) = str_strip <$> filter (composes s) [r].
Proof.
  unfold attempt. rewrite filter_cons, filter_nil. by case_decide.
Qed.

Lemma sleeps_attempt s r : sleeps (attempt s r) = [].
Proof. unfold attempt. by case_decide. Qed.

Lemma sent_to_rounds s l : ∀ rs,
  sent_to (rounds_trace s rs l) = str_strip <$> filter (composes s) l.
Proof.
  induction l as [|r l IH]; intros rs; [done|].
  rewrite rounds_trace_cons, !sent_to_app, IH, sent_to_attempt.
  change (r :: l) with ([r] ++ l). rewrite filter_app, fmap_app.
  by rewrite app_nil_r.
Qed.

Lemma sleeps_rounds s l : ∀ rs,
  sleeps (rounds_trace s rs l) = (λ k, delay_of s (rs k)) <$> seq 0 (length l).
Proof.
  induction l as [|r l IH]; intros rs; [done|].
  rewrite rounds_trace_cons, !sleeps_app, IH, sleeps_attempt.
  cbn [length seq fmap list_fmap app].
  rewrite <- fmap_S_seq, <- list_fmap_compose. done.
Qed.

Lemma filter_composes_all s l :
  Forall (composes s) l → filter (composes s) l = l.
Proof.
  induction 1 as [|r l Hr _ IH]; [done|].
  by rewrite filter_cons, decide_True, IH.
Qed.

Lemma calls_before_all s l k :
  Forall (composes s) l → (k ≤ length l)%nat → calls_before s l k = k.
Proof.
  intros Hall Hk. unfold calls_before.
  rewrite filter_composes_all by (by apply Forall_take).
  rewrite length_take. lia.
Qed.

(** The line of the recipient of index [k] stands at index [2 * k] of the
    lines of the loop, whatever the lines before it are. *)
Lemma lookup_join_pairs {A B} (l : list A) : ∀ (f g : nat → A → B) k r,
  l !! k = Some r →
  mjoin (imap (λ k r, [f k r; g k r]) l) !! (2 * k) = Some (f k r).
Proof.
  induction l as [|a l IH]; intros f g k r Hk; [done|].
  rewrite imap_cons. destruct k as [|k].
  - by injection Hk as ->.
  - replace (2 * S k) with (S (S (2 * k))) by lia. cbn.
    apply (IH (f ∘ S) (g ∘ S)). exact Hk.
Qed.

Lemma rounds_log_lookup total s outs rs i l k r :
  l !! k = Some r →
  rounds_log total s outs rs i l !! (2 * k)
  = Some (answer_line total (i + k) s r (outs (calls_before s l k))).
Proof.
  intros Hk. unfold rounds_log.
  apply (lookup_join_pairs l
           (λ k r, answer_line total (i + k) s r (outs (calls_before s l k)))
           (λ k _, waiting_line (delay_of s (rs k))) k r Hk).
Qed.

(** *** Every way the session can go *)

(** Splits the run by what the conversion of the port and the server's
    answers up to the login are. *)
Ltac handshake_cases :=
  unfold_session;
  destruct (int _) as [?port|?e]; fields;
  [ destruct (connect_outcome _) as [?e|]; fields;
    [ | destruct (ehlo_outcomes _ 0) as [?e|]; fields;
        [ | destruct (starttls_outcome _) as [?e|] eqn:?Htls; fields;
            [ | destruct (behead (ehlo_outcomes _) 0) as [?e|]; fields ];
            destruct (login_outcome _) as [?e|]; fields ] ]
  | ].






(** C4. When the login is refused, the run logs the line that announces
    the connection and then one fatal line with the error, submits no
    message, and returns normally. *)
Theorem login_failure_aborts_batch (w : World) (port : Z) (e : PyExn) :
  int (smtp_port (settings w)) = Ok port →
  connect_outcome (smtp w) = None →
  ehlo_outcomes (smtp w) 0 = None →
  login_outcome (smtp w) = Some e →
  ∃ w' new,
    send_bulk_emails w = (Ok tt, w') ∧
    log w' = log w ++ new ∧
    log_text <$> new = ["Connecting to SMTP server..."; fatal_line e] ∧
    length (filter (λ line, is_fatal line = true) (log_text <$> new)) = 1 ∧
    trace w' = trace w ++ handshake w port ∧
    sent_to (trace w') = sent_to (trace w) ∧
    sleeps (trace w') = sleeps (trace w).
Proof.
  intros Hport Hconn Hehlo Hlogin. unfold handshake.
  unfold_session. rewrite Hport, Hconn. fields. rewrite Hehlo. fields.
  destruct (starttls_outcome (smtp w)) as [e1|]; fields;
    [|destruct (behead (ehlo_outcomes (smtp w)) 0) as [e2|]; fields];
    rewrite Hlogin; fields.
  all: eexists _, [_; _]; split; [reflexivity|]; fields.
  all: rewrite <- !app_assoc; split_and!; try done.
  all: try reflexivity.
  all: rewrite ?sent_to_app, ?sleeps_app; cbn; by rewrite ?app_nil_r.
Qed.

(** With an empty recipient list and a session that opens, the run connects,
    logs in, says that there is nothing to send, and stops. *)
Lemma run_empty w port :
  session_opens w port →
  receiver_list (settings w) = [] →
  ∃ w' new,
    send_bulk_emails w = (Ok tt, w') ∧
    log w' = log w ++ new ∧
    log_text <$> new
    = ["Connecting to SMTP server..."; "Logged in successfully!";
       "No recipient emails found. Aborting send."] ∧
    trace w' = trace w ++ handshake w port.
Proof.
  intros (Hport&Hconn&Hehlo&Hlogin) Hl. unfold handshake.
  unfold_session. rewrite Hport, Hconn. fields. rewrite Hehlo. fields.
  destruct (starttls_outcome (smtp w)) as [e1|]; fields;
    [|destruct (behead (ehlo_outcomes (smtp w)) 0) as [e2|]; fields];
    rewrite Hlogin; fields; rewrite Hl; cbn [length Nat.eqb].
  all: eexists _, [_; _; _]; split; [reflexivity|]; fields.
  all: by rewrite <- !app_assoc.
Qed.

(** C3, as the code has it. With an empty recipient list the run never
    submits a message and never sleeps; it does open the connection and log
    in first, and when both succeed it ends with the line that says there is
    nothing to send. *)
Theorem empty_list_connects_then_stops (w : World) :
  receiver_list (settings w) = [] →
  ∃ w' new,
    send_bulk_emails w = (Ok tt, w') ∧
    log w' = log w ++ new ∧
    sent_to (trace w') = sent_to (trace w) ∧
    sleeps (trace w') = sleeps (trace w) ∧
    ∀ port, session_opens w port →
      trace w' = trace w ++ handshake w port ∧
      log_text <$> new
      = ["Connecting to SMTP server..."; "Logged in successfully!";
         "No recipient emails found. Aborting send."].
Proof.
  intros Hl. unfold session_opens, handshake. handshake_cases.
  all: rewrite ?Hl; cbn [length Nat.eqb].
  all: eexists _, _; split; [reflexivity|]; fields.
  all: rewrite <- ?app_assoc.
  all: split; [reflexivity|].
  all: rewrite ?sent_to_app, ?sleeps_app; cbn; rewrite ?app_nil_r.
  all: split_and!; try done.
  all: intros p (?&?&?&?); simplify_eq; try done.
Qed.

(** *** The batch *)

Lemma rounds_log_all_compose total s outs rs i l :
  Forall (composes s) l →
  rounds_log total s outs rs i l
  = mjoin (imap (λ k r, [outcome_line total (i + k) (str_strip r) (outs k);
                         waiting_line (delay_of s (rs k))]) l).
Proof.
  intros Hall. unfold rounds_log. f_equal. apply imap_ext. intros k r Hk. cbn.
  rewrite calls_before_all by (done || apply lookup_lt_Some in Hk; lia).
  unfold answer_line.
  by rewrite (Forall_lookup_1 _ _ _ _ Hall Hk : composing _ = None).
Qed.

(** C1. When the session opens and the delays are ones [time.sleep]
    accepts, the run goes through the whole list, whatever happens to each
    recipient: a message that cannot be composed and a submission the server
    refuses are logged with the text of the error, an accepted submission
    with its position, each line is followed by the line that announces the
    wait, and the log ends with the completion line. Every recipient whose
    message composes is submitted, in the order of the list, and the line of
    the recipient of index [k] stands at its place whatever the answers
    before it were. In particular, with three recipients whose messages
    compose and of which the server refuses only the second, the lines are:
    sent 1/3, failed with the error, sent 3/3 (each followed by its wait) and
    the completion line. *)
Theorem send_failure_does_not_abort_batch (w : World) (port : Z) :
  session_opens w port →
  delays_accepted (settings w) →
  unit_draws (rng w) →
  receiver_list (settings w) ≠ [] →
  let s := settings w in
  let rl := receiver_list s in
  let answers := sendmail_outcomes (smtp w) in
  ∃ w' new,
    send_bulk_emails w = (Ok tt, w') ∧
    log w' = log w ++ new ∧
    sent_to (trace w')
    = sent_to (trace w) ++ (str_strip <$> filter (composes s) rl) ∧
    log_text <$> new
    = ["Connecting to SMTP server..."; "Logged in successfully!"]
      ++ mjoin (imap (λ k r, [answer_line (length rl) (S k) s r
                                (answers (calls_before s rl k));
                              waiting_line (delay_of s (rng w k))]) rl)
      ++ ["All emails processed."] ∧
    (∀ k r, rl !! k = Some r →
       (log_text <$> new) !! (2 + 2 * k)
       = Some (answer_line (length rl) (S k) s r (answers (calls_before s rl k)))) ∧
    (∀ k r e, rl !! k = Some r → composes s r →
       answers (calls_before s rl k) = Some e →
       (log_text <$> new) !! (2 + 2 * k) = Some (failed_line (str_strip r) e)) ∧
    (∀ r1 r2 r3 e, rl = [r1; r2; r3] → Forall (composes s) rl →
       answers 0 = None → answers 1 = Some e → answers 2 = None →
       log_text <$> new
       = ["Connecting to SMTP server..."; "Logged in successfully!";
          sent_line 3 1 (str_strip r1);
          waiting_line (delay_of s (rng w 0));
          failed_line (str_strip r2) e;
          waiting_line (delay_of s (rng w 1));
          sent_line 3 3 (str_strip r3);
          waiting_line (delay_of s (rng w 2));
          "All emails processed."]).
Proof.
  intros Hopen Hacc Hr Hne s rl answers.
  destruct (run_batch w port Hopen Hne) as (w'&new&R&Hlog&Htxt&Htr).
  { intros k _. apply delay_of_accepted; [done|apply Hr..]. }
  fold s rl answers in Htxt, Htr.
  assert (Hline : ∀ k r, rl !! k = Some r →
            (log_text <$> new) !! (2 + 2 * k)
            = Some (answer_line (length rl) (S k) s r (answers (calls_before s rl k)))).
  { intros k r Hk. rewrite Htxt. cbn [app Nat.add lookup list_lookup].
    apply lookup_app_l_Some.
    apply (rounds_log_lookup (length rl) s answers (rng w) 1 rl k r Hk). }
  exists w', new.
  split_and!; [done|done| |exact Htxt|exact Hline| |].
  - rewrite Htr, !sent_to_app, sent_to_handshake, sent_to_rounds. cbn.
    by rewrite app_nil_r.
  - intros k r e Hk Hc He. rewrite (Hline k r Hk). unfold answer_line.
    by rewrite (Hc : composing _ = None), He.
  - intros r1 r2 r3 e Hrl Hall H0 H1 H2.
    rewrite Htxt, (rounds_log_all_compose _ _ _ _ _ _ Hall), Hrl. cbn.
    by rewrite H0, H1, H2.
Qed.

(** C9. When the session opens, the list is not empty, both delays are
    numbers, the smaller one is not negative and the upper end of the
    interval is within the range of [time.sleep], every recipient is followed
    by a sleep, the last one included, whether its message was submitted and
    accepted, submitted and refused, or could not be composed: after the
    handshake the trace holds, for each recipient in turn, the submission (if
    there was one) and the sleep, and then the [quit]. There are as many
    sleeps as recipients; the [k]-th lasts [uniform mind maxd' r] for the
    [k]-th random number [r], where [maxd'] is [max_delay] (or [min_delay]
    when [max_delay] is smaller), and lies between [mind] and [maxd']. *)
Theorem sleeps_after_every_recipient (w : World) (port : Z) (mind maxd : Qc) :
  session_opens w port →
  receiver_list (settings w) ≠ [] →
  float (min_delay (settings w)) = Ok mind →
  float (max_delay (settings w)) = Ok maxd →
  (0 ≤ mind)%Qc →
  (effective_max mind maxd ≤ sleep_max)%Qc →
  unit_draws (rng w) →
  let rl := receiver_list (settings w) in
  let maxd' := effective_max mind maxd in
  let nap := λ k, uniform mind maxd' (rng w k) in
  ∃ w',
    send_bulk_emails w = (Ok tt, w') ∧
    trace w' = trace w ++ handshake w port
               ++ mjoin (imap (λ k r, attempt (settings w) r ++ [Slept (nap k)]) rl)
               ++ [SMTP_quit] ∧
    sleeps (trace w') = sleeps (trace w) ++ (nap <$> seq 0 (length rl)) ∧
    length (sleeps (trace w')) = length (sleeps (trace w)) + length rl ∧
    (∀ k, (mind ≤ nap k)%Qc ∧ (nap k ≤ maxd')%Qc) ∧
    ((mind ≤ maxd)%Qc → maxd' = maxd).
Proof.
  intros Hopen Hne Ha Hb Hpos Hmax Hr rl maxd' nap.
  assert (Hdelay : ∀ k, delay_of (settings w) (rng w k) = nap k).
  { intros k. by apply delay_of_numbers. }
  assert (Hnap : ∀ k, (mind ≤ nap k)%Qc ∧ (nap k ≤ maxd')%Qc).
  { intros k. split.
    - apply uniform_ge; [apply effective_max_ge|apply Hr].
    - apply uniform_le; [apply effective_max_ge|]. apply Qclt_le_weak, Hr. }
  destruct (run_batch w port Hopen Hne) as (w'&new&R&Hlog&Htxt&Htr).
  { intros k _. rewrite Hdelay. apply sleep_error_accepts.
    - etrans; [exact Hpos|apply Hnap].
    - etrans; [apply Hnap|exact Hmax]. }
  assert (Hsl : sleeps (trace w') = sleeps (trace w) ++ (nap <$> seq 0 (length rl))).
  { rewrite Htr, !sleeps_app, sleeps_handshake, sleeps_rounds. cbn.
    rewrite app_nil_r. f_equal. apply list_fmap_ext. intros _ k _. apply Hdelay. }
  exists w'. split_and!; [done| |done| |done|].
  - rewrite Htr. do 2 f_equal. unfold rounds_trace. do 2 f_equal.
    apply imap_ext. intros k r _. cbn. by rewrite Hdelay.
  - by rewrite Hsl, length_app, length_fmap, length_seq.
  - intros Hle. unfold maxd', effective_max. case_bool_decide as Hlt; [|done].
    by destruct (Qclt_not_le _ _ Hlt).
Qed.

(** C10. When [min_delay] or [max_delay] is not a number, the run does not
    stop and skips no delay: every delay is [uniform 2 5 r] for the next
    random number [r], between 2 and 5 seconds, one after each recipient, and
    the batch goes on as with well-formed delays: every recipient whose
    message composes is submitted, and the log is that of a whole batch. *)
Theorem unconvertible_delay_falls_back (w : World) (port : Z) :
  session_opens w port →
  (∃ e, float (min_delay (settings w)) = Raised e) ∨
  (∃ e, float (max_delay (settings w)) = Raised e) →
  unit_draws (rng w) →
  let s := settings w in
  let rl := receiver_list s in
  let nap := λ k, uniform (Q2Qc 2) (Q2Qc 5) (rng w k) in
  ∃ w' new,
    send_bulk_emails w = (Ok tt, w') ∧
    log w' = log w ++ new ∧
    sleeps (trace w') = sleeps (trace w) ++ (nap <$> seq 0 (length rl)) ∧
    (∀ k, (Q2Qc 2 ≤ nap k)%Qc ∧ (nap k ≤ Q2Qc 5)%Qc) ∧
    sent_to (trace w')
    = sent_to (trace w) ++ (str_strip <$> filter (composes s) rl) ∧
    (rl ≠ [] →
     log_text <$> new
     = ["Connecting to SMTP server..."; "Logged in successfully!"]
       ++ mjoin (imap (λ k r, [answer_line (length rl) (S k) s r
                                 (sendmail_outcomes (smtp w) (calls_before s rl k));
                               waiting_line (nap k)]) rl)
       ++ ["All emails processed."]).
Proof.
  intros Hopen Hbad Hr s rl nap.
  assert (Hdelay : ∀ k, delay_of (settings w) (rng w k) = nap k).
  { intros k. by apply delay_of_fallback. }
  assert (Hnap : ∀ k, (Q2Qc 2 ≤ nap k)%Qc ∧ (nap k ≤ Q2Qc 5)%Qc).
  { intros k. split.
    - apply (uniform_ge (Q2Qc 2) (Q2Qc 5) (rng w k) two_le_five), Hr.
    - apply (uniform_le (Q2Qc 2) (Q2Qc 5) (rng w k) two_le_five).
      apply Qclt_le_weak, Hr. }
  destruct (receiver_list (settings w)) as [|r0 l0] eqn:Hl.
  - destruct (run_empty w port Hopen Hl) as (w'&new&R&Hlog&Htxt&Htr).
    exists w', new. subst rl s. rewrite Hl.
    split_and!; [done|done| |done| |done].
    + rewrite Htr, sleeps_app, sleeps_handshake. done.
    + rewrite Htr, sent_to_app, sent_to_handshake. done.
  - destruct (run_batch w port Hopen) as (w'&new&R&Hlog&Htxt&Htr).
    { by rewrite Hl. }
    { intros k _. rewrite Hdelay. apply fallback_accepted; apply Hr. }
    rewrite Hl in Htxt, Htr. subst rl s. rewrite Hl.
    exists w', new. split_and!; [done|done| |done| |].
    + rewrite Htr, !sleeps_app, sleeps_handshake, sleeps_rounds. cbn [app].
      rewrite app_nil_r. f_equal. apply list_fmap_ext. intros _ k _. apply Hdelay.
    + rewrite Htr, !sent_to_app, sent_to_handshake, sent_to_rounds. cbn [app].
      by rewrite app_nil_r.
    + intros _. rewrite Htxt. do 2 f_equal. unfold rounds_log. f_equal.
      apply imap_ext. intros k r _. cbn. by rewrite Hdelay.
Qed.

(** C6, as the code has it. The worker clamps when it draws a delay: with
    numbers [mind] and [maxd] in the settings, the delay is drawn between
    [mind] and an upper end that is never below [mind], and when
    [maxd < mind] that upper end is [mind] and the delay is exactly [mind],
    whatever the random number is. The settings are left as they were. *)
Theorem delay_clamped_when_drawn (w : World) (mind maxd : Qc) :
  float (min_delay (settings w)) = Ok mind →
  float (max_delay (settings w)) = Ok maxd →
  ∃ w',
    draw_delay w = (Ok (uniform mind (effective_max mind maxd) (rng w 0)), w') ∧
    settings w' = settings w ∧
    (mind ≤ effective_max mind maxd)%Qc ∧
    ((maxd < mind)%Qc →
     effective_max mind maxd = mind ∧
     uniform mind (effective_max mind maxd) (rng w 0) = mind).
Proof.
  intros Ha Hb. eexists. rewrite draw_delay_run, (delay_of_numbers _ _ mind maxd Ha Hb).
  split_and!; [reflexivity|done|apply effective_max_ge|].
  intros Hlt. unfold effective_max. rewrite bool_decide_eq_true_2 by done.
  split; [done|apply uniform_same].
Qed.

(** *** The worker in every world *)

Lemma omap_attempt_none {A} (f : Event → option A) s r :
  (∀ a b c, f (SMTP_sendmail a b c) = None) → omap f (attempt s r) = [].
Proof.
  intros Hs. unfold attempt. case_decide; [|done]. cbn. unfold submission.
  by rewrite Hs.
Qed.

Lemma omap_rounds_none {A} (f : Event → option A) s l :
  (∀ a b c, f (SMTP_sendmail a b c) = None) → (∀ d, f (Slept d) = None) →
  ∀ rs, omap f (rounds_trace s rs l) = [].
Proof.
  intros Hs Hd. induction l as [|r l IH]; intros rs; [done|].
  rewrite rounds_trace_cons, !omap_app, IH, omap_attempt_none by done. cbn.
  by rewrite Hd.
Qed.

(** The loop in every world: it runs through the list, or it stops at the
    first recipient after whom the delay drawn is one [time.sleep] refuses,
    having dealt with that recipient and announced the wait. *)
Lemma for_enumerate_any total l : ∀ i w,
  ∃ res w' new,
    for_enumerate i l (loop_body total) w = (res, w') ∧
    settings w' = settings w ∧
    log w' = log w ++ new ∧
    ((res = Ok tt ∧
      trace w' = trace w ++ rounds_trace (settings w) (rng w) l ∧
      log_text <$> new
      = rounds_log total (settings w) (sendmail_outcomes (smtp w)) (rng w) i l)
     ∨
     (∃ m r e, l !! m = Some r ∧ loop_stops (settings w) (rng w) m e ∧
        res = Raised e ∧
        trace w' = trace w ++ rounds_trace (settings w) (rng w) (take m l)
                   ++ attempt (settings w) r ∧
        log_text <$> new
        = rounds_log total (settings w) (sendmail_outcomes (smtp w)) (rng w) i
            (take m l)
          ++ [answer_line total (i + m) (settings w) r
                (sendmail_outcomes (smtp w) (calls_before (settings w) l m));
              waiting_line (delay_of (settings w) (rng w m))])).
Proof.
  induction l as [|r l IH]; intros i w.
  - exists (Ok tt), w, []. cbn. rewrite !app_nil_r. split_and!; try done. by left.
  - cbn [for_enumerate]. rewrite bind_run.
    destruct (sleep_error (delay_of (settings w) (rng w 0))) as [e|] eqn:Hd.
    + rewrite (loop_body_refused_run total i r w e Hd).
      eexists (Raised e), _, [_; _]. split; [reflexivity|].
      unfold before_sleep. fields. split_and!; [done|done|].
      right. exists 0, r, e. rewrite Nat.add_0_r. cbn [take].
      split_and!; try done.
      split; [done|]. intros k Hk. lia.
    + rewrite loop_body_run by done.
      set (w1 := after_round _ _ _ _ _).
      destruct (IH (S i) w1) as (res&w'&new&R&Hs&Hl&Hcases).
      exists res, w',
        ([mkLog (clock w 0)
            (answer_line total i (settings w) r (sendmail_outcomes (smtp w) 0));
          mkLog (clock w 1) (waiting_line (delay_of (settings w) (rng w 0)))]
         ++ new).
      rewrite R, Hs, Hl. subst w1.
      cbn [after_round settings log trace rng smtp next_server sendmail_outcomes]
        in *.
      split_and!; [done|done|by rewrite <- !app_assoc|].
      destruct Hcases as [(->&Htr&Ht)|(m&r'&e&Hm&[Hstop Hbefore]&->&Htr&Ht)].
      * left. rewrite Htr, rounds_log_cons, rounds_trace_cons, fmap_app, Ht.
        by rewrite <- !app_assoc.
      * right. exists (S m), r', e. cbn [take lookup].
        rewrite Htr, rounds_log_cons, rounds_trace_cons, fmap_app, Ht.
        rewrite answers_left_shift.
        rewrite <- !app_assoc, Nat.add_succ_r. split_and!; try done.
        split; [exact Hstop|]. intros [|k] Hk; [done|]. apply (Hbefore k). lia.
Qed.

(** Every run, whatever the settings and the server: what it leaves behind
    and what its trace can hold. *)
Lemma run_any w :
  ∃ w' new tr (n : nat),
    send_bulk_emails w = (Ok tt, w') ∧
    settings w' = settings w ∧
    log w' = log w ++ new ∧
    trace w' = trace w ++ tr ∧
    (n ≤ length (receiver_list (settings w)))%nat ∧
    sent_to tr
    = str_strip <$> filter (composes (settings w)) (take n (receiver_list (settings w))) ∧
    (length (sleeps tr) ≤ n)%nat ∧ (n ≤ S (length (sleeps tr)))%nat ∧
    (length (connections tr) ≤ 1)%nat ∧ (length (logins tr) ≤ 1)%nat ∧
    (length (quits tr) ≤ 1)%nat ∧
    (n ≠ 0 → ∃ port, session_opens w port) ∧
    (quits tr ≠ [] → n = length (receiver_list (settings w)) ∧ length (sleeps tr) = n).
Proof.
  unfold session_opens. handshake_cases.
  (* the run stopped before or at the login *)
  all: try (eexists _, _, _, 0; split; [reflexivity|]; fields;
            rewrite <- ?app_assoc;
            split_and!; [done|done|first [done|symmetry; apply app_nil_r]|..];
            [cbn; lia|done|cbn; lia|cbn; lia|cbn; lia|cbn; lia|cbn; lia|done|
             by cbn]).
  all: destruct (receiver_list (settings w)) as [|r0 l0] eqn:Hl;
    cbn [length Nat.eqb]; fields; rewrite ?Hl.
  all: try (eexists _, _, _, 0; split; [reflexivity|]; fields;
            rewrite <- ?app_assoc;
            split_and!; [done|done|done|..];
            [cbn; lia|done|cbn; lia|cbn; lia|cbn; lia|cbn; lia|cbn; lia|done|
             by cbn]).
  all: match goal with
       | |- context [for_enumerate 1 ?L ?B ?W] =>
           destruct (for_enumerate_any (S (length l0)) L 1 W)
             as (res&w3&new&R&Hs&Hlog&Hcases)
       end.
  all: rewrite R; revert Hs Hlog Hcases; fields; intros Hs Hlog Hcases.
  all: destruct Hcases as [(->&Htr&_)|(m&r&e'&Hm&_&->&Htr&_)].
  (* the loop ran through: [quit], then the completion line *)
  1,3,5: destruct (quit_outcome (smtp w3)); fields;
    (eexists _, _, _, (S (length l0)); split; [reflexivity|]; fields;
     rewrite Hs, Hlog, Htr, <- ?app_assoc;
     split_and!; [done|done|done|cbn; lia| | | | | | |by eexists|]).
  all: try (rewrite !sent_to_app, sent_to_rounds; cbn;
            by rewrite app_nil_r, take_ge).
  all: try (rewrite !sleeps_app, sleeps_rounds, !length_app, length_fmap,
              length_seq; cbn; lia).
  all: try (unfold connections, logins, quits;
            rewrite !omap_app, omap_rounds_none by done; cbn; lia).
  all: try (intros _; split; [done|];
            rewrite !sleeps_app, sleeps_rounds, !length_app, length_fmap,
              length_seq; cbn; lia).
  (* the loop stopped at a delay [time.sleep] refused: the error line *)
  all: pose proof (lookup_lt_Some _ _ _ Hm) as Hlt; cbn [length] in Hlt.
  all: eexists _, _, _, (S m); split; [reflexivity|]; fields;
       rewrite Hs, Hlog, Htr, <- ?app_assoc;
       split_and!; [done|done|done|cbn; lia| | | | | | |by eexists|].
  all: try (rewrite !sent_to_app, sent_to_rounds, sent_to_attempt,
              (take_S_r _ _ _ Hm), filter_app, fmap_app; by cbn).
  all: try (rewrite !sleeps_app, sleeps_rounds, sleeps_attempt, !length_app,
              length_fmap, length_seq, length_take; cbn; lia).
  all: try (unfold connections, logins, quits;
            rewrite !omap_app, omap_rounds_none, omap_attempt_none by done;
            cbn; lia).
  all: intros Hq; destruct Hq; unfold quits;
       by rewrite !omap_app, omap_rounds_none, omap_attempt_none.
Qed.

(** X1. A run changes no setting and takes nothing back: it returns
    normally, the settings are the ones it found, and the log and the trace
    it leaves are the ones it found with lines and events added at the
    end. *)
Theorem run_keeps_settings_and_history (w : World) :
  ∃ w' new tr,
    send_bulk_emails w = (Ok tt, w') ∧
    settings w' = settings w ∧
    log w' = log w ++ new ∧
    trace w' = trace w ++ tr.
Proof.
  destruct (run_any w) as (w'&new&tr&n&R&Hs&Hl&Ht&_).
  by exists w', new, tr.
Qed.

(** X2. In every world the run deals with the first [n] recipients of the
    list and with nobody else, and the recipients it submits to are those
    among the [n] whose message can be composed, trimmed, each once and in
    the order of the list: nobody outside the list, nobody twice, and nobody
    skipped but for a message that cannot be composed. The run sleeps after
    each of the [n], except possibly the last one reached. *)
Theorem submissions_follow_the_list (w : World) :
  ∃ w' tr (n : nat),
    send_bulk_emails w = (Ok tt, w') ∧
    trace w' = trace w ++ tr ∧
    (n ≤ length (receiver_list (settings w)))%nat ∧
    sent_to tr
    = str_strip <$> filter (composes (settings w)) (take n (receiver_list (settings w))) ∧
    (length (sleeps tr) ≤ n)%nat ∧ (n ≤ S (length (sleeps tr)))%nat.
Proof.
  destruct (run_any w) as (w'&new&tr&n&R&Hs&Hl&Ht&Hn&Hsent&Hs1&Hs2&_).
  by exists w', tr, n.
Qed.

(** X3. A run uses one session: it opens at most one connection, logs in at
    most once and sends at most one [quit]. It submits a message only when
    the port was a number and the server accepted the connection, the first
    [ehlo] and the login; and it sends [quit] only after it has dealt with
    every recipient, submitting to those whose message composes, and slept
    after each. *)
Theorem one_session_per_run (w : World) :
  ∃ w' tr,
    send_bulk_emails w = (Ok tt, w') ∧
    trace w' = trace w ++ tr ∧
    (length (connections tr) ≤ 1)%nat ∧
    (length (logins tr) ≤ 1)%nat ∧
    (length (quits tr) ≤ 1)%nat ∧
    (sent_to tr ≠ [] → ∃ port, session_opens w port) ∧
    (quits tr ≠ [] →
     sent_to tr
     = str_strip <$> filter (composes (settings w)) (receiver_list (settings w)) ∧
     length (sleeps tr) = length (receiver_list (settings w))).
Proof.
  destruct (run_any w)
    as (w'&new&tr&n&R&Hs&Hl&Ht&Hn&Hsent&Hs1&Hs2&Hc&Hlg&Hq&Hopen&Hdone).
  exists w', tr. split_and!; try done.
  - intros Hne. apply Hopen. intros ->. by rewrite Hsent in Hne.
  - intros Hquit. destruct (Hdone Hquit) as [-> Hsl].
    by rewrite Hsent, take_ge.
Qed.

(** X4. When the port is not a number, the run attempts nothing on the
    network: it logs the line that announces the connection and the error of
    the conversion, and the trace is left as it was. *)
Theorem bad_port_stops_before_connecting (w : World) (e : PyExn) :
  int (smtp_port (settings w)) = Raised e →
  ∃ w' new,
    send_bulk_emails w = (Ok tt, w') ∧
    log w' = log w ++ new ∧
    log_text <$> new = ["Connecting to SMTP server..."; fatal_line e] ∧
    trace w' = trace w.
Proof.
  intros Hport. unfold_session. rewrite Hport. fields.
  eexists _, [_; _]. split; [reflexivity|]. fields.
  by rewrite <- !app_assoc.
Qed.

(** X5. When the server refuses the connection, or accepts it and refuses
    the first [ehlo], the run stops there: no login is attempted, nothing is
    submitted, and the log is the line that announces the connection followed
    by the error. *)
Theorem connection_failure_aborts_batch (w : World) (port : Z) (e : PyExn) :
  int (smtp_port (settings w)) = Ok port →
  connect_outcome (smtp w) = Some e ∨
  (connect_outcome (smtp w) = None ∧ ehlo_outcomes (smtp w) 0 = Some e) →
  ∃ w' new tr,
    send_bulk_emails w = (Ok tt, w') ∧
    log w' = log w ++ new ∧
    log_text <$> new = ["Connecting to SMTP server..."; fatal_line e] ∧
    trace w' = trace w ++ tr ∧
    logins tr = [] ∧ sent_to tr = [] ∧ sleeps tr = [] ∧
    connections tr = [(smtp_server (settings w), port)].
Proof.
  intros Hport [Hc|[Hc He]]; unfold_session; rewrite Hport, Hc; fields;
    rewrite ?He; fields.
  all: eexists _, [_; _], _; split; [reflexivity|]; fields.
  all: rewrite <- !app_assoc; by split_and!.
Qed.

Lemma sleep_error_of_negative d : (d < 0)%Qc → ∃ e, sleep_error d = Some e.
Proof.
  intros Hd. unfold sleep_error.
  destruct (_ || _); [by eexists|]. rewrite bool_decide_eq_true_2 by done.
  by eexists.
Qed.

Lemma negative_delays_drawn s r mind maxd :
  float (min_delay s) = Ok mind → float (max_delay s) = Ok maxd →
  (mind < 0)%Qc → (maxd < 0)%Qc → (r ≤ 1)%Qc →
  (delay_of s r < 0)%Qc.
Proof.
  intros Ha Hb Hmin Hmax Hr. rewrite (delay_of_numbers s r mind maxd Ha Hb).
  eapply Qcle_lt_trans; [apply uniform_le; [apply effective_max_ge|done]|].
  unfold effective_max. by case_bool_decide.
Qed.

(** X6. When the delay drawn after the first recipient is one [time.sleep]
    refuses, the batch ends there. This is so when [min_delay] and
    [max_delay] are both negative numbers, and when [min_delay] is beyond the
    range of [time.sleep]. The run deals with the first recipient (it
    submits the message if it composes), logs the outcome and the wait, and
    then [time.sleep] raises; the error is logged as the fatal line, no other
    recipient is dealt with, and neither a sleep nor a [quit] takes place.
    The error is the one about the sign when the delays are negative and
    within the range, and the one of the conversion when they are beyond the
    range, on either side. *)
Theorem refused_delay_stops_after_first (w : World) (port : Z)
    (mind maxd : Qc) (r0 : string) (l0 : list string) :
  session_opens w port →
  receiver_list (settings w) = r0 :: l0 →
  float (min_delay (settings w)) = Ok mind →
  float (max_delay (settings w)) = Ok maxd →
  ((mind < 0)%Qc ∧ (maxd < 0)%Qc) ∨ (sleep_max < mind)%Qc →
  unit_draws (rng w) →
  ∃ w' new e,
    send_bulk_emails w = (Ok tt, w') ∧
    log w' = log w ++ new ∧
    sleep_error (delay_of (settings w) (rng w 0)) = Some e ∧
    log_text <$> new
    = ["Connecting to SMTP server..."; "Logged in successfully!";
       answer_line (S (length l0)) 1 (settings w) r0 (sendmail_outcomes (smtp w) 0);
       waiting_line (delay_of (settings w) (rng w 0));
       fatal_line e] ∧
    trace w' = trace w ++ handshake w port ++ attempt (settings w) r0 ∧
    ((sleep_min ≤ mind)%Qc → (mind < 0)%Qc → e = sleep_refused) ∧
    ((sleep_max < mind)%Qc → e = sleep_overflow) ∧
    ((effective_max mind maxd < sleep_min)%Qc → e = sleep_overflow).
Proof.
  intros (Hport&Hconn&Hehlo&Hlogin) Hl Ha Hb Hout Hr.
  set (d := delay_of (settings w) (rng w 0)).
  assert (Hd : d = uniform mind (effective_max mind maxd) (rng w 0))
    by (by apply delay_of_numbers).
  assert (Hge : (mind ≤ d)%Qc).
  { rewrite Hd. apply uniform_ge; [apply effective_max_ge|apply Hr]. }
  assert (He : ∃ e, sleep_error d = Some e).
  { destruct Hout as [[Hmin Hmax]|Hlong].
    - apply sleep_error_of_negative.
      eapply negative_delays_drawn; eauto. apply Qclt_le_weak, Hr.
    - eexists. apply sleep_error_too_long. by eapply Qclt_le_trans. }
  destruct He as [e He].
  assert (Hsign : (sleep_min ≤ mind)%Qc → (mind < 0)%Qc → e = sleep_refused).
  { intros Hin Hneg. destruct Hout as [[_ Hmax]|Hlong].
    - assert (Hdneg : (d < 0)%Qc).
      { eapply negative_delays_drawn; eauto. apply Qclt_le_weak, Hr. }
      rewrite sleep_error_negative in He; [by injection He|by etrans|done].
    - destruct (Qclt_not_le _ _ Hlong). etrans; [apply Qclt_le_weak, Hneg|].
      by vm_compute. }
  assert (Hsize : (sleep_max < mind)%Qc → e = sleep_overflow).
  { intros Hlong. rewrite sleep_error_too_long in He; [by injection He|].
    by eapply Qclt_le_trans. }
  assert (Hshort : (effective_max mind maxd < sleep_min)%Qc → e = sleep_overflow).
  { intros Hlow. rewrite sleep_error_too_short in He; [by injection He|].
    eapply Qcle_lt_trans; [|exact Hlow]. rewrite Hd.
    apply uniform_le; [apply effective_max_ge|]. apply Qclt_le_weak, Hr. }
  unfold_session. rewrite Hport, Hconn. fields. rewrite Hehlo. fields.
  destruct (starttls_outcome (smtp w)) as [e1|] eqn:Htls; fields;
    [|destruct (behead (ehlo_outcomes (smtp w)) 0) as [e2|]; fields];
    rewrite Hlogin; fields; rewrite Hl; cbn [length Nat.eqb]; fields;
    rewrite Hl; cbn [for_enumerate]; rewrite bind_run.
  all: match goal with
       | |- context [loop_body ?T 1 ?R0 ?W] =>
           rewrite (loop_body_refused_run T 1 R0 W e He)
       end.
  all: unfold before_sleep; fields.
  all: eexists _, [_; _; _; _; _], e; split; [reflexivity|]; fields.
  all: unfold handshake; rewrite Htls.
  all: by rewrite <- !app_assoc.
Qed.

End Worker_facts.

(** ** Concrete runs *)

Lemma halves_unit_draws : unit_draws halves.
Proof. intros k. split; [by intros H | reflexivity]. Qed.

Lemma default_delays_accepted s :
  min_delay s = PyInt 2 → max_delay s = PyInt 5 → delays_accepted digits_float s.
Proof.
  intros Ha Hb. left. exists (Q2Qc 2), (Q2Qc 5). rewrite Ha, Hb.
  split_and!; [reflexivity|reflexivity|by vm_compute|by vm_compute].
Qed.

Lemma three_world_opens : session_opens digits three_world 587.
Proof. by repeat split. Qed.

Lemma three_recipients_compose mind maxd :
  Forall (composes plain_headers (three_recipients mind maxd))
    (receiver_list (three_recipients mind maxd)).
Proof. by repeat constructor. Qed.

Lemma refused_login_opens_until_login :
  int digits (smtp_port (settings locked_out)) = Ok 587%Z ∧
  connect_outcome (smtp locked_out) = None ∧
  ehlo_outcomes (smtp locked_out) 0 = None ∧
  login_outcome (smtp locked_out) = Some bad_credentials.
Proof. by repeat split. Qed.

(** The run of C1 on three recipients of which the server refuses the
    second: all three are submitted, and the log is the one the claim
    lists. *)
Lemma send_failure_does_not_abort_batch_witness :
  session_opens digits three_world 587 ∧
  delays_accepted digits_float (settings three_world) ∧
  unit_draws (rng three_world) ∧
  receiver_list (settings three_world) ≠ [] ∧
  ∃ w' new,
    send_bulk_emails digits_float digits plain_headers three_world = (Ok tt, w') ∧
    log w' = log three_world ++ new ∧
    sent_to (trace w') = ["a@b.c"; "d@e.f"; "g@h.i"] ∧
    log_text <$> new
    = ["Connecting to SMTP server..."; "Logged in successfully!";
       "Sent to a@b.c (1/3)"; "Waiting 3.50s before next email...";
       "Failed to send to d@e.f: {'d@e.f': (550, b'No such user')}";
       "Waiting 3.50s before next email...";
       "Sent to g@h.i (3/3)"; "Waiting 3.50s before next email...";
       "All emails processed."].
Proof.
  assert (H1 := three_world_opens).
  assert (H2 := default_delays_accepted (settings three_world) eq_refl eq_refl).
  assert (H3 := halves_unit_draws : unit_draws (rng three_world)).
  assert (H4 : receiver_list (settings three_world) ≠ []) by discriminate.
  split_and!; [done..|].
  destruct (send_failure_does_not_abort_batch digits_float digits plain_headers
              three_world 587 H1 H2 H3 H4) as (w'&new&R&Hlog&Hsent&_&_&_&Hthree).
  exists w', new. split_and!; [done|done|exact Hsent|].
  exact (Hthree "a@b.c" "d@e.f" "g@h.i" no_such_user eq_refl
           (three_recipients_compose _ _) eq_refl eq_refl eq_refl).
Defined.


(** C3 as stated fails: with an empty recipient list and a willing server
    the run opens the connection and logs in. *)
Lemma empty_list_still_connects :
  receiver_list (settings idle) = [] ∧
  trace (send_bulk_emails digits_float digits plain_headers idle).2
  = [SMTP_connect "smtp.gmail.com" 587; SMTP_ehlo; SMTP_starttls; SMTP_ehlo;
     SMTP_login EmptyString EmptyString] ∧
  trace (send_bulk_emails digits_float digits plain_headers idle).2 ≠ trace idle.
Proof. split_and!; [reflexivity|by vm_compute|by vm_compute]. Qed.

Lemma empty_list_connects_then_stops_witness :
  receiver_list (settings idle) = [] ∧
  ∃ w' new,
    send_bulk_emails digits_float digits plain_headers idle = (Ok tt, w') ∧
    log w' = log idle ++ new ∧
    sent_to (trace w') = sent_to (trace idle) ∧
    sleeps (trace w') = sleeps (trace idle) ∧
    trace w' = trace idle ++ handshake idle 587 ∧
    log_text <$> new
    = ["Connecting to SMTP server..."; "Logged in successfully!";
       "No recipient emails found. Aborting send."].
Proof.
  split; [reflexivity|].
  destruct (empty_list_connects_then_stops digits_float digits plain_headers idle
              eq_refl) as (w'&new&R&Hlog&Hsent&Hsl&Hopen).
  destruct (Hopen 587%Z) as [Htr Htxt]; [repeat split; reflexivity|].
  exists w', new. repeat split; assumption.
Defined.

Lemma login_failure_aborts_batch_witness :
  login_outcome (smtp locked_out) = Some bad_credentials ∧
  ∃ w' new,
    send_bulk_emails digits_float digits plain_headers locked_out = (Ok tt, w') ∧
    log w' = log locked_out ++ new ∧
    log_text <$> new
    = ["Connecting to SMTP server...";
       "Error in send_bulk_emails: (535, b'5.7.8 Username and Password not accepted.')"] ∧
    length (filter (λ line, is_fatal line = true) (log_text <$> new)) = 1 ∧
    sent_to (trace w') = [].
Proof.
  destruct refused_login_opens_until_login as (H1&H2&H3&H4).
  split; [done|].
  destruct (login_failure_aborts_batch digits_float digits plain_headers locked_out
              587 bad_credentials H1 H2 H3 H4) as (w'&new&R&Hlog&Htxt&Hone&_&Hsent&_).
  exists w', new. repeat split; assumption.
Defined.

(** C6 as stated fails: the form above asks for a minimum of 5 and a maximum
    of 2, and the settings built from it hold exactly that. *)
Lemma built_settings_are_not_clamped :
  let s := settings (API_send_emails swapped_delays idle).2 in
  min_delay s = PyStr "5" ∧ max_delay s = PyStr "2" ∧
  ∃ mind maxd,
    float digits_float (min_delay s) = Ok mind ∧
    float digits_float (max_delay s) = Ok maxd ∧
    (maxd < mind)%Qc.
Proof. split_and!; [reflexivity..|]. by eexists _, _. Qed.

Lemma delay_clamped_when_drawn_witness :
  float digits_float (min_delay (settings swapped)) = Ok (Q2Qc 5) ∧
  float digits_float (max_delay (settings swapped)) = Ok (Q2Qc 2) ∧
  (Q2Qc 2 < Q2Qc 5)%Qc ∧
  ∃ w', draw_delay digits_float swapped = (Ok (Q2Qc 5), w').
Proof.
  split_and!; [reflexivity..|].
  destruct (delay_clamped_when_drawn digits_float swapped (Q2Qc 5) (Q2Qc 2)
              eq_refl eq_refl) as (w'&R&_&_&Hexact).
  destruct Hexact as [_ Hd]; [reflexivity|].
  exists w'. by rewrite <- Hd at 1.
Defined.

(** C7 as stated fails: what [parse_receivers] returns for the example is
    the list of the three strings, and its third entry is the string
    ["bad-entry"] with no mark on it; the mark is the line in the log. *)
Lemma parse_receivers_returns_plain_strings :
  ∃ out : list string,
    (parse_receivers example_text idle).1 = Ok out ∧
    out = ["a@b.com"; "c@d.com"; "bad-entry"] ∧
    out !! 2 = Some "bad-entry" ∧
    log_text <$> log (parse_receivers example_text idle).2
    = ["Warning: 'bad-entry' doesn't look like a valid email address."].
Proof. eexists. split_and!; reflexivity. Qed.

(** C8 as stated fails: parsing a text with a suspect entry changes the
    log. *)
Lemma parse_receivers_writes_log :
  log idle = [] ∧
  log (parse_receivers "bad-entry" idle).2
  = [mkLog "2025-01-01 12:00:00"
       "Warning: 'bad-entry' doesn't look like a valid email address."] ∧
  (parse_receivers "bad-entry" idle).2 ≠ idle.
Proof.
  split_and!; [reflexivity..|]. intros H. apply (f_equal log) in H. discriminate.
Qed.

Lemma sleeps_after_every_recipient_witness :
  session_opens digits three_world 587 ∧
  (0 ≤ Q2Qc 2)%Qc ∧
  (effective_max (Q2Qc 2) (Q2Qc 5) ≤ sleep_max)%Qc ∧
  ∃ w',
    send_bulk_emails digits_float digits plain_headers three_world = (Ok tt, w') ∧
    length (sleeps (trace w')) = 3 ∧
    sleeps (trace w') = (λ _, uniform (Q2Qc 2) (Q2Qc 5) (Q2Qc (1 # 2))) <$> seq 0 3.
Proof.
  assert (H1 := three_world_opens).
  assert (H4 : receiver_list (settings three_world) ≠ []) by discriminate.
  assert (H5 : (0 ≤ Q2Qc 2)%Qc) by (by intros H).
  assert (H6 : (effective_max (Q2Qc 2) (Q2Qc 5) ≤ sleep_max)%Qc) by (by vm_compute).
  split_and!; [done..|].
  destruct (sleeps_after_every_recipient digits_float digits plain_headers
              three_world 587 (Q2Qc 2) (Q2Qc 5) H1 H4 eq_refl eq_refl H5 H6
              halves_unit_draws)
    as (w'&R&_&Hsl&Hlen&_).
  exists w'. split_and!; [done|exact Hlen|exact Hsl].
Defined.

Lemma unconvertible_delay_falls_back_witness :
  float digits_float (min_delay (settings garbled)) = Raised
    (ValueError "could not convert string to float: 'soon'") ∧
  ∃ w' new,
    send_bulk_emails digits_float digits plain_headers garbled = (Ok tt, w') ∧
    log w' = log garbled ++ new ∧
    sent_to (trace w') = ["a@b.c"; "d@e.f"; "g@h.i"] ∧
    length (sleeps (trace w')) = 3.
Proof.
  split; [reflexivity|].
  destruct (unconvertible_delay_falls_back digits_float digits plain_headers
              garbled 587)
    as (w'&new&R&Hlog&Hsl&_&Hsent&_).
  - by repeat split.
  - left. by eexists.
  - exact halves_unit_draws.
  - exists w', new. split_and!; [done|done|exact Hsent|].
    by rewrite Hsl.
Defined.

(** A subject that carries a second header: no message can be composed, so
    nothing is submitted; every recipient gets the line of the failure and
    its sleep, and the run ends as a whole batch does. *)
Lemma embedded_header_submits_nothing :
  sent_to (trace (send_bulk_emails digits_float digits plain_headers smuggled).2) = [] ∧
  length (sleeps (trace (send_bulk_emails digits_float digits plain_headers smuggled).2))
  = 3 ∧
  log_text <$> log (send_bulk_emails digits_float digits plain_headers smuggled).2
  = ["Connecting to SMTP server..."; "Logged in successfully!";
     "Failed to send to a@b.c: header value appears to contain an embedded header: 'Hi\nBcc: x@y.z'";
     "Waiting 3.50s before next email...";
     "Failed to send to d@e.f: header value appears to contain an embedded header: 'Hi\nBcc: x@y.z'";
     "Waiting 3.50s before next email...";
     "Failed to send to g@h.i: header value appears to contain an embedded header: 'Hi\nBcc: x@y.z'";
     "Waiting 3.50s before next email..."; "All emails processed."].
Proof. split_and!; by vm_compute. Qed.

(** A wait beyond the range of [time.sleep]: the run stops after the first
    recipient with the error of the conversion. *)
Lemma overlong_delay_stops_the_batch :
  sent_to (trace (send_bulk_emails digits_float digits plain_headers patient).2)
  = ["a@b.c"] ∧
  sleeps (trace (send_bulk_emails digits_float digits plain_headers patient).2) = [] ∧
  log_text <$> log (send_bulk_emails digits_float digits plain_headers patient).2
  = ["Connecting to SMTP server..."; "Logged in successfully!";
     "Sent to a@b.c (1/3)";
     "Waiting 10000000000.00s before next email...";
     "Error in send_bulk_emails: timestamp too large to convert to C _PyTime_t"].
Proof. split_and!; by vm_compute. Qed.

(** * Further properties *)

(** ** Text *)

Section Text_facts.

Implicit Types (s t u : string) (c : ascii).

Lemma app_nil_l_str s : EmptyString +:+ s = s.
Proof. reflexivity. Qed.

Lemma app_cons_str c s t : String c s +:+ t = String c (s +:+ t).
Proof. reflexivity. Qed.

Lemma chars_app s t : chars (s +:+ t) = chars s ++ chars t.
Proof.
  unfold chars. induction s as [|c s IH]; [done|].
  rewrite app_cons_str. cbn. by f_equal.
Qed.

Lemma app_empty_r s : s +:+ EmptyString = s.
Proof. induction s as [|c s IH]; [done|]. by rewrite app_cons_str, IH. Qed.

Lemma app_assoc_str s t u : (s +:+ t) +:+ u = s +:+ (t +:+ u).
Proof. induction s as [|c s IH]; [done|]. by rewrite !app_cons_str, IH. Qed.

Lemma rev_app_spec s : ∀ t, String.rev_app s t = String.rev s +:+ t.
Proof.
  unfold String.rev. induction s as [|c s IH]; intros t; [done|].
  cbn [String.rev_app]. by rewrite (IH (String c EmptyString)), IH, app_assoc_str.
Qed.

Lemma rev_cons c s : String.rev (String c s) = String.rev s +:+ String c EmptyString.
Proof. unfold String.rev at 1. cbn [String.rev_app]. apply rev_app_spec. Qed.

Lemma rev_app_distr s t : String.rev (s +:+ t) = String.rev t +:+ String.rev s.
Proof.
  induction s as [|c s IH].
  - change (String.rev EmptyString) with EmptyString. by rewrite app_empty_r.
  - by rewrite app_cons_str, !rev_cons, IH, app_assoc_str.
Qed.

Lemma rev_involutive s : String.rev (String.rev s) = s.
Proof.
  induction s as [|c s IH]; [done|].
  by rewrite rev_cons, rev_app_distr, IH.
Qed.

Lemma chars_rev s : chars (String.rev s) = rev (chars s).
Proof.
  induction s as [|c s IH]; [done|].
  rewrite rev_cons, chars_app, IH. done.
Qed.

(** *** [strip] *)

Lemma lstrip_solid s : starts_solid (str_lstrip s).
Proof.
  induction s as [|c s IH]; cbn; [done|].
  destruct (isspace c) eqn:Hc; [done|]. cbn. done.
Qed.

Lemma lstrip_id s : starts_solid s → str_lstrip s = s.
Proof. destruct s as [|c s]; cbn; [done|]. by intros ->. Qed.

(** What [lstrip] removes is whitespace at the start. *)
Lemma lstrip_split s :
  ∃ pre, s = pre +:+ str_lstrip s ∧ Forall (λ c, isspace c = true) (chars pre).
Proof.
  induction s as [|c s (pre&Hs&Hpre)]; cbn [str_lstrip].
  - by exists EmptyString.
  - destruct (isspace c) eqn:Hc.
    + exists (String c pre). rewrite app_cons_str, <- Hs.
      split; [done|by constructor].
    + by exists EmptyString.
Qed.

Lemma rstrip_ends_solid s : ends_solid (str_rstrip s).
Proof.
  unfold ends_solid, str_rstrip. rewrite rev_involutive. apply lstrip_solid.
Qed.

Lemma rstrip_id s : ends_solid s → str_rstrip s = s.
Proof.
  unfold ends_solid, str_rstrip. intros H.
  by rewrite (lstrip_id _ H), rev_involutive.
Qed.

(** What [rstrip] removes is whitespace at the end. *)
Lemma rstrip_split s :
  ∃ suf, s = str_rstrip s +:+ suf ∧ Forall (λ c, isspace c = true) (chars suf).
Proof.
  destruct (lstrip_split (String.rev s)) as (pre&Hs&Hpre).
  exists (String.rev pre). split.
  - unfold str_rstrip. rewrite <- rev_app_distr, <- Hs. by rewrite rev_involutive.
  - rewrite chars_rev. by apply Forall_rev.
Qed.

Lemma rstrip_starts_solid s : starts_solid s → starts_solid (str_rstrip s).
Proof.
  destruct (rstrip_split s) as (suf&Hs&_). intros H.
  destruct (str_rstrip s) as [|c t] eqn:Hr; [done|].
  rewrite Hs in H. exact H.
Qed.

Lemma strip_solid s : starts_solid (str_strip s) ∧ ends_solid (str_strip s).
Proof.
  unfold str_strip. split.
  - apply rstrip_starts_solid, lstrip_solid.
  - apply rstrip_ends_solid.
Qed.

Lemma strip_id s : starts_solid s → ends_solid s → str_strip s = s.
Proof.
  intros H1 H2. unfold str_strip. by rewrite (lstrip_id _ H1), (rstrip_id _ H2).
Qed.

(** [strip] cuts whitespace off both ends and nothing else. *)
Lemma strip_split s :
  ∃ pre suf,
    s = pre +:+ str_strip s +:+ suf ∧
    Forall (λ c, isspace c = true) (chars pre) ∧
    Forall (λ c, isspace c = true) (chars suf).
Proof.
  destruct (lstrip_split s) as (pre&Hs&Hpre).
  destruct (rstrip_split (str_lstrip s)) as (suf&Hr&Hsuf).
  exists pre, suf. split; [|done]. unfold str_strip. by rewrite <- Hr.
Qed.

Lemma strip_chars s c : c ∈ chars (str_strip s) → c ∈ chars s.
Proof.
  destruct (strip_split s) as (pre&suf&Hs&_). intros Hc.
  rewrite Hs, !chars_app, !elem_of_app. auto.
Qed.

Lemma lstrip_blank s :
  Forall (λ c, isspace c = true) (chars s) → str_lstrip s = EmptyString.
Proof.
  induction s as [|c s IH]; cbn; [done|].
  intros [Hc Hs]%Forall_cons. rewrite Hc. by apply IH.
Qed.

Lemma strip_blank s :
  Forall (λ c, isspace c = true) (chars s) → str_strip s = EmptyString.
Proof. intros H. unfold str_strip. by rewrite lstrip_blank. Qed.

(** *** [re.split] *)

Lemma re_split_go_chars s : ∀ in_run cur p c,
  p ∈ re_split_go in_run cur s → c ∈ chars p →
  c ∈ chars cur ∨ (c ∈ chars s ∧ is_delim c = false).
Proof.
  induction s as [|a s IH]; intros in_run cur p c; cbn.
  - intros ->%list_elem_of_singleton. auto.
  - destruct (is_delim a) eqn:Ha.
    + destruct in_run.
      * intros Hp Hc. destruct (IH _ _ _ _ Hp Hc) as [?|[? ?]]; [by left|].
        right. split; [by right|done].
      * intros [->|Hp]%elem_of_cons Hc; [by left|].
        destruct (IH _ _ _ _ Hp Hc) as [H|[? ?]].
        -- by apply elem_of_nil in H.
        -- right. split; [by right|done].
    + intros Hp Hc. destruct (IH _ _ _ _ Hp Hc) as [H|[? ?]].
      * rewrite chars_app in H. apply elem_of_app in H as [H|H]; [by left|].
        apply list_elem_of_singleton in H as ->. right. split; [by left|done].
      * right. split; [by right|done].
Qed.

Lemma re_split_chars text p c :
  p ∈ re_split text → c ∈ chars p → c ∈ chars text ∧ is_delim c = false.
Proof.
  intros Hp Hc. destruct (re_split_go_chars _ _ _ _ _ Hp Hc) as [H|H]; [|done].
  by apply elem_of_nil in H.
Qed.

End Text_facts.

(** ** The regular expressions *)

Section Regex_facts.

Implicit Types (r : regex) (s u v : string) (c : ascii).

Lemma app_eq_empty u v : u +:+ v = EmptyString → u = EmptyString ∧ v = EmptyString.
Proof.
  destruct u; [rewrite app_nil_l_str; by intros ->|].
  rewrite app_cons_str. discriminate.
Qed.

Lemma nullable_matches r : nullable r = true ↔ matches r EmptyString.
Proof.
  split.
  - induction r as [| |p|r1 IH1 r2 IH2|r1 IH1 r2 IH2|r IH]; cbn; try done.
    + constructor.
    + intros [H1 H2]%andb_true_iff.
      apply (matches_cat r1 r2 EmptyString EmptyString); auto.
    + intros [H|H]%orb_true_iff; [apply matches_alt_l|apply matches_alt_r]; auto.
    + constructor.
  - intros H. remember EmptyString as s eqn:Hs.
    induction H as [|p c Hp|r1 r2 u v H1 IH1 H2 IH2|r1 r2 u H IH|r1 r2 u H IH|r
                   |r u v H1 IH1 H2 IH2]; cbn; try done.
    + apply app_eq_empty in Hs as [-> ->]. by rewrite IH1, IH2.
    + by rewrite IH.
    + rewrite IH; [|done]. apply orb_true_r.
Qed.

Lemma deriv_sound c r : ∀ s, matches (deriv c r) s → matches r (String c s).
Proof.
  induction r as [| |p|r1 IH1 r2 IH2|r1 IH1 r2 IH2|r IH]; intros s; cbn.
  - inversion 1.
  - inversion 1.
  - destruct (p c) eqn:Hp; inversion 1; subst. by constructor.
  - destruct (nullable r1) eqn:Hn.
    + inversion 1 as [| | |? ? ? Hl|? ? ? Hr| |]; subst.
      * inversion Hl as [| |? ? u v Hu Hv| | | |]; subst.
        apply (matches_cat r1 r2 (String c u) v); auto.
      * apply (matches_cat r1 r2 EmptyString (String c s)); auto.
        by apply nullable_matches.
    + inversion 1 as [| |? ? u v Hu Hv| | | |]; subst.
      apply (matches_cat r1 r2 (String c u) v); auto.
  - inversion 1; subst; [apply matches_alt_l|apply matches_alt_r]; auto.
  - inversion 1 as [| |? ? u v Hu Hv| | | |]; subst.
    apply (matches_star_cons r (String c u) v); auto.
Qed.

Lemma deriv_complete c r s : matches r (String c s) → matches (deriv c r) s.
Proof.
  intros H. remember (String c s) as x eqn:Hx. revert s Hx.
  induction H as [|p a Hp|r1 r2 u v H1 IH1 H2 IH2|r1 r2 u H IH|r1 r2 u H IH|r
                 |r u v H1 IH1 H2 IH2]; intros s Hx; cbn.
  - discriminate.
  - injection Hx as -> <-. rewrite Hp. constructor.
  - destruct u as [|a u].
    + rewrite app_nil_l_str in Hx. subst v. apply nullable_matches in H1.
      rewrite H1. apply matches_alt_r. by apply IH2.
    + rewrite app_cons_str in Hx. injection Hx as -> <-.
      assert (Hc : matches (Cat (deriv c r1) r2) (u +:+ v)).
      { constructor; [by apply IH1|done]. }
      destruct (nullable r1); [by apply matches_alt_l|done].
  - apply matches_alt_l. by apply IH.
  - apply matches_alt_r. by apply IH.
  - discriminate.
  - destruct u as [|a u].
    + rewrite app_nil_l_str in Hx. by apply IH2.
    + rewrite app_cons_str in Hx. injection Hx as -> <-.
      constructor; [by apply IH1|done].
Qed.

(** The matcher decides the words of the expression. *)
Lemma fullmatch_matches s : ∀ r, fullmatch r s = true ↔ matches r s.
Proof.
  induction s as [|c s IH]; intros r; cbn.
  - apply nullable_matches.
  - rewrite IH. split; [apply deriv_sound|apply deriv_complete].
Qed.

(** *** The words of [EMAIL_RE] *)

Lemma matches_cat_inv r1 r2 s :
  matches (Cat r1 r2) s ↔ ∃ u v, s = u +:+ v ∧ matches r1 u ∧ matches r2 v.
Proof.
  split.
  - inversion 1; subst. eauto.
  - intros (u&v&->&H1&H2). by constructor.
Qed.

Lemma matches_chr c s : matches (Chr c) s ↔ s = String c EmptyString.
Proof.
  unfold Chr. split.
  - inversion 1 as [|? a Ha| | | | |]; subst.
    by apply bool_decide_eq_true in Ha as ->.
  - intros ->. constructor. by apply bool_decide_eq_true.
Qed.

Lemma matches_star_cls p s :
  matches (Star (Cls p)) s ↔ Forall (λ c, p c = true) (chars s).
Proof.
  split.
  - intros H. remember (Star (Cls p)) as r eqn:Hr.
    induction H as [| | | | |r'|r' u v H1 _ H2 IH2]; try discriminate.
    + constructor.
    + injection Hr as ->. inversion H1; subst.
      constructor; [done|]. by apply IH2.
  - induction s as [|c s IH]; cbn.
    + constructor.
    + intros [Hc Hs]%Forall_cons.
      apply (matches_star_cons (Cls p) (String c EmptyString) s); [by constructor|auto].
Qed.

Lemma matches_plus_cls p s :
  matches (Plus (Cls p)) s ↔
  s ≠ EmptyString ∧ Forall (λ c, p c = true) (chars s).
Proof.
  unfold Plus. rewrite matches_cat_inv. split.
  - intros (u&v&->&Hu&Hv). inversion Hu; subst. split; [done|].
    constructor; [done|]. by apply matches_star_cls.
  - intros [Hne Hall]. destruct s as [|c s]; [done|].
    apply Forall_cons in Hall as [Hc Hs].
    exists (String c EmptyString), s. split_and!; [done|by constructor|].
    by apply matches_star_cls.
Qed.

Lemma matches_addr_part s : matches (Plus addr_char) s ↔ address_part s.
Proof.
  unfold addr_char, address_part. rewrite matches_plus_cls.
  apply and_iff_compat_l. apply Forall_iff. intros c.
  rewrite negb_true_iff, orb_false_iff, bool_decide_eq_false. tauto.
Qed.

Lemma matches_EMAIL_RE e : matches EMAIL_RE e ↔ address_shaped e.
Proof.
  unfold EMAIL_RE, address_shaped. rewrite matches_cat_inv. split.
  - intros (l&x&->&Hl&(a&y&->&->%matches_chr&(d&z&->&Hd&(b&t&->&->%matches_chr&Ht)
      %matches_cat_inv)%matches_cat_inv)%matches_cat_inv).
    exists l, d, t. by rewrite <- !matches_addr_part.
  - intros (l&d&t&->&Hl&Hd&Ht). rewrite <- matches_addr_part in Hl, Hd, Ht.
    exists l, ("@" +:+ d +:+ "." +:+ t). split_and!; [done|done|].
    apply (matches_cat _ _ "@" (d +:+ "." +:+ t)); [by apply matches_chr|].
    apply matches_cat; [done|].
    apply (matches_cat _ _ "." t); [by apply matches_chr|done].
Qed.

Lemma chomp_spec s : ∀ s', chomp s = Some s' ↔ s = s' +:+ String newline EmptyString.
Proof.
  induction s as [|c s IH]; intros s'.
  - split; [done|]. intros H. symmetry in H. by apply app_eq_empty in H as [_ ?].
  - destruct s as [|c' s].
    + cbn [chomp]. destruct s' as [|a s'].
      * rewrite app_nil_l_str. case_bool_decide; split; congruence.
      * rewrite app_cons_str. split.
        -- case_bool_decide; congruence.
        -- intros [= _ H]. symmetry in H. by apply app_eq_empty in H as [_ ?].
    + change (chomp (String c (String c' s)))
        with (String c <$> chomp (String c' s)).
      destruct s' as [|a s'].
      * rewrite app_nil_l_str. split; [|congruence].
        by destruct (chomp (String c' s)).
      * rewrite app_cons_str. split.
        -- destruct (chomp (String c' s)) as [t|] eqn:Ht; cbn; [|done].
           intros [= -> ->]. f_equal. by apply IH.
        -- intros [= -> H]. apply IH in H. by rewrite H.
Qed.

(** X9. [EMAIL_RE] accepts exactly the texts of the shape
    [local@domain.tld], where each of the three parts is non-empty and holds
    neither ["@"] nor whitespace (a dot may stand inside any part), and such
    a text followed by one newline. *)
Theorem EMAIL_RE_accepts_address_shapes (e : string) :
  EMAIL_RE_match e = true ↔
  address_shaped e ∨
  ∃ e', e = e' +:+ String newline EmptyString ∧ address_shaped e'.
Proof.
  unfold EMAIL_RE_match. rewrite orb_true_iff, fullmatch_matches, matches_EMAIL_RE.
  apply or_iff_compat_l. split.
  - destruct (chomp e) as [e'|] eqn:Hc; [|done].
    rewrite fullmatch_matches, matches_EMAIL_RE. apply chomp_spec in Hc. eauto.
  - intros (e'&He%chomp_spec&Hs). rewrite He.
    by rewrite fullmatch_matches, matches_EMAIL_RE.
Qed.

End Regex_facts.

(** ** More on the recipient parser *)

Section Parser_more.

Lemma entries_are_trimmed_pieces text e :
  e ∈ entries text →
  ∃ p, p ∈ re_split text ∧ e = str_strip p ∧ e ≠ EmptyString.
Proof.
  unfold entries. intros [He (p&->&Hp)%list_elem_of_fmap]%list_elem_of_filter.
  exists p. split_and!; [done|done|]. intros Hempty. by rewrite Hempty in He.
Qed.

Lemma parsed_in_entries text e : e ∈ parsed text → e ∈ entries text.
Proof.
  intros He. destruct (parsed_deduped text) as [_ _ Hfirst _ _].
  destruct (Hfirst e He) as [p (Hp&_)%list_find_Some].
  by eapply list_elem_of_lookup_2.
Qed.

Lemma parsed_entry_clean text e :
  e ∈ parsed text →
  e ≠ EmptyString ∧ starts_solid e ∧ ends_solid e ∧ str_strip e = e ∧
  ∀ c, c ∈ chars e → c ∈ chars text ∧ is_delim c = false.
Proof.
  intros He.
  destruct (entries_are_trimmed_pieces text e (parsed_in_entries _ _ He))
    as (p&Hp&->&Hne).
  destruct (strip_solid p) as [H1 H2].
  split_and!; [done|done|done|by apply strip_id|].
  intros c Hc. eapply re_split_chars; [done|]. by apply strip_chars.
Qed.

(** X7. Every entry [parse_receivers] returns is a trimmed piece of the
    text: it is not empty, it neither begins nor ends with whitespace (so
    that trimming it again changes nothing), and all its characters are
    characters of the text other than the comma, the semicolon and the
    newline. *)
Theorem parse_receivers_entries_are_clean (text : string) (w : World) :
  ∃ out w',
    parse_receivers text w = (Ok out, w') ∧
    ∀ e, e ∈ out →
      e ≠ EmptyString ∧
      starts_solid e ∧ ends_solid e ∧
      str_strip e = e ∧
      ∀ c, c ∈ chars e → c ∈ chars text ∧ is_delim c = false.
Proof.
  destruct (parse_receivers_run text w) as (w'&R&_).
  exists (parsed text), w'. split; [done|]. apply parsed_entry_clean.
Qed.

Lemma entries_blank text :
  Forall (λ c, is_delim c = true ∨ isspace c = true) (chars text) →
  entries text = [].
Proof.
  intros Hblank. unfold entries.
  apply elem_of_nil_inv.
  intros e [He (p&->&Hp)%list_elem_of_fmap]%list_elem_of_filter.
  rewrite strip_blank in He; [done|]. apply Forall_forall. intros c Hc.
  destruct (re_split_chars text p c Hp Hc) as [Hin Hnd].
  rewrite Forall_forall in Hblank.
  destruct (Hblank c Hin) as [Hd|Hs]; [congruence|done].
Qed.

(** X8. A text that holds nothing but commas, semicolons, newlines and
    whitespace (the empty text among them) gives the empty list, and the
    call logs nothing. *)
Theorem parse_receivers_blank_text (text : string) (w : World) :
  Forall (λ c, is_delim c = true ∨ isspace c = true) (chars text) →
  ∃ w', parse_receivers text w = (Ok [], w') ∧ log w' = log w.
Proof.
  intros Hblank.
  destruct (parse_receivers_run text w) as (w'&R&_&_&_&_&new&Hl&Hn).
  assert (Hp : parsed text = []).
  { unfold parsed. by rewrite (entries_blank text Hblank). }
  rewrite Hp in R, Hn. exists w'. split; [done|].
  apply fmap_nil_inv in Hn. by rewrite Hl, Hn, app_nil_r.
Qed.

Lemma parsed_entry_suspect text e :
  e ∈ parsed text → suspect e ↔ ¬ address_shaped e.
Proof.
  intros He. destruct (parsed_entry_clean text e He) as (_&_&_&_&Hchars).
  assert (Hc : chomp e = None).
  { destruct (chomp e) as [e'|] eqn:Hc; [|done]. apply chomp_spec in Hc.
    destruct (Hchars newline) as [_ Hd]; [|done].
    rewrite Hc, chars_app, elem_of_app. right. by left. }
  unfold suspect, EMAIL_RE_match. rewrite Hc, orb_false_r.
  by rewrite <- not_true_iff_false, fullmatch_matches, matches_EMAIL_RE.
Qed.

(** X10. The warnings [parse_receivers] logs are the warnings for the
    entries of its result that are not of the shape [local@domain.tld]:
    one line for each such entry, in the order of the result, and no line
    for an entry of that shape. *)
Theorem warnings_are_for_unshaped_entries (text : string) (w : World) :
  ∃ out w' new,
    parse_receivers text w = (Ok out, w') ∧
    log w' = log w ++ new ∧
    log_text <$> new = warning_text <$> filter suspect out ∧
    ∀ e, e ∈ out → (e ∈ filter suspect out ↔ ¬ address_shaped e).
Proof.
  destruct (parse_receivers_run text w) as (w'&R&_&_&_&_&new&Hl&Hn).
  exists (parsed text), w', new. split_and!; [done..|].
  intros e He. rewrite list_elem_of_filter, <- (parsed_entry_suspect text e He).
  tauto.
Qed.

End Parser_more.

(** ** The API *)

Section API_facts.

Implicit Types (form : gmap string string) (w : World).

Lemma update_allowed_run form keys : ∀ w,
  update_allowed keys form w
  = (Ok tt, mkWorld (foldl (store form) (settings w) keys) (log w) (trace w)
                    (clock w) (rng w) (smtp w)).
Proof.
  induction keys as [|key keys IH]; intros w; cbn [update_allowed foldl].
  - by destruct w.
  - rewrite bind_run. unfold store at 2.
    destruct (form !! key) as [v|]; unfold_monad; rewrite IH; cbn; [done|].
    by destruct w.
Qed.

Lemma store_allowed form s : foldl (store form) s allowed_keys = configured form s.
Proof.
  destruct s. unfold allowed_keys, configured, store. cbn [foldl].
  repeat match goal with |- context [form !! ?k] => destruct (form !! k) end;
    reflexivity.
Qed.

Lemma API_send_emails_run form w :
  ∃ w' new,
    API_send_emails form w = (Ok tt, w') ∧
    settings w'
    = set_receiver_list (parsed (receivers_text form)) (configured form (settings w)) ∧
    trace w' = trace w ∧ rng w' = rng w ∧ smtp w' = smtp w ∧
    log w' = log w ++ new ∧
    log_text <$> new
    = (warning_text <$> filter suspect (parsed (receivers_text form)))
      ++ [loaded_line (length (parsed (receivers_text form)))].
Proof.
  unfold API_send_emails. rewrite bind_run, update_allowed_run, store_allowed.
  fold (receivers_text form). rewrite bind_run.
  match goal with
  | |- context [parse_receivers _ ?W] =>
      destruct (parse_receivers_run (receivers_text form) W)
        as (w1&R&Hs&Ht&Hr&Hm&new&Hl&Hn)
  end.
  rewrite R. unfold_monad. cbn [settings log trace clock rng smtp] in *.
  eexists _, (new ++ [_]). split; [reflexivity|].
  cbn [settings log trace clock rng smtp].
  rewrite Hs, Hl, fmap_app, Hn, <- app_assoc. by split_and!.
Qed.

(** X11. [API.send_emails], up to the start of the worker, never raises.
    It replaces each of the eight allowed settings for which the form holds
    a key by the string of the form and keeps the others; the recipient list
    becomes what [parse_receivers] makes of the key ["receiver_emails"], or
    the empty list when the form has no such key; every other key of the
    form is ignored. It touches no network, and logs the warnings of the
    parser followed by the line that tells how many recipients were
    loaded. *)
Theorem form_is_read_into_settings (form : gmap string string) (w : World) :
  ∃ w' new,
    API_send_emails form w = (Ok tt, w') ∧
    settings w'
    = set_receiver_list (parsed (receivers_text form)) (configured form (settings w)) ∧
    trace w' = trace w ∧
    log w' = log w ++ new ∧
    log_text <$> new
    = (warning_text <$> filter suspect (parsed (receivers_text form)))
      ++ [loaded_line (length (receiver_list (settings w')))] ∧
    (form !! "receiver_emails" = None → receiver_list (settings w') = []).
Proof.
  destruct (API_send_emails_run form w) as (w'&new&R&Hs&Ht&_&_&Hl&Hn).
  exists w', new. rewrite Hs. cbn [set_receiver_list receiver_list].
  split_and!; try done.
  intros Hnone. unfold receivers_text. by rewrite Hnone.
Qed.

(** X12. After [API.send_emails] has read the form, the recipient list of
    the settings has no two entries that are equal under case-insensitive
    comparison, and each entry is non-empty and trimmed, so that the
    [strip] the worker applies to each recipient changes nothing. *)
Theorem form_gives_clean_recipient_list (form : gmap string string) (w : World) :
  ∃ w',
    API_send_emails form w = (Ok tt, w') ∧
    NoDup (str_lower <$> receiver_list (settings w')) ∧
    (∀ r, r ∈ receiver_list (settings w') → r ≠ EmptyString ∧ str_strip r = r) ∧
    str_strip <$> receiver_list (settings w') = receiver_list (settings w').
Proof.
  destruct (API_send_emails_run form w) as (w'&new&R&Hs&_).
  exists w'. rewrite Hs. cbn [set_receiver_list receiver_list].
  destruct (parsed_deduped (receivers_text form)) as [_ Hnd _ _ _].
  split_and!; [done|exact Hnd| |].
  - intros r Hr. by destruct (parsed_entry_clean _ _ Hr) as (?&_&_&?&_).
  - rewrite <- (list_fmap_id (parsed _)) at 2. apply list_fmap_ext.
    intros i r Hr. by destruct (parsed_entry_clean _ r (list_elem_of_lookup_2 _ _ _ Hr))
      as (_&_&_&?&_).
Qed.

Lemma configured_twice form s l :
  configured form (set_receiver_list l (configured form s))
  = set_receiver_list l (configured form s).
Proof.
  destruct s. unfold configured, set_receiver_list. cbn.
  repeat match goal with |- context [form !! ?k] => destruct (form !! k) end;
    reflexivity.
Qed.

(** X13. Reading the same form a second time leaves the settings as the
    first reading made them. *)
Theorem reading_form_twice_changes_nothing (form : gmap string string) (w : World) :
  ∃ w1 w2,
    API_send_emails form w = (Ok tt, w1) ∧
    API_send_emails form w1 = (Ok tt, w2) ∧
    settings w2 = settings w1.
Proof.
  destruct (API_send_emails_run form w) as (w1&n1&R1&Hs1&_).
  destruct (API_send_emails_run form w1) as (w2&n2&R2&Hs2&_).
  exists w1, w2. split_and!; [done..|].
  rewrite Hs2, Hs1, configured_twice. done.
Qed.

End API_facts.

(** ** From the form to the batch *)

Section Form_to_batch.

Context (float_of_str : string → option Qc) (int_of_str : string → option Z)
        (composing : Message → option PyExn).

Local Abbreviation send_bulk_emails :=
  (send_bulk_emails float_of_str int_of_str composing).
Local Abbreviation delay_of := (delay_of float_of_str).
Local Abbreviation composes := (composes composing).
Local Abbreviation delays_accepted := (delays_accepted float_of_str).
Local Abbreviation session_opens := (session_opens int_of_str).

(** X14. When [API.send_emails] has read a form and the worker then runs
    on the settings it left, with a session that opens and delays that
    [time.sleep] accepts, the recipients submitted are the entries
    [parse_receivers] makes of the form's text whose message can be composed,
    each once, in that order, and the run sleeps once after each entry,
    submitted or not. *)
Theorem form_recipients_are_submitted
    (form : gmap string string) (w w1 : World) (port : Z) :
  API_send_emails form w = (Ok tt, w1) →
  session_opens w1 port →
  delays_accepted (settings w1) →
  unit_draws (rng w1) →
  parsed (receivers_text form) ≠ [] →
  ∃ w2,
    send_bulk_emails w1 = (Ok tt, w2) ∧
    sent_to (trace w2)
    = sent_to (trace w)
      ++ filter (composes (settings w1)) (parsed (receivers_text form)) ∧
    length (sleeps (trace w2))
    = length (sleeps (trace w)) + length (parsed (receivers_text form)).
Proof.
  intros Hapi Hopen Hacc Hr Hne.
  destruct (API_send_emails_run form w) as (w'&n1&R&Hs&Ht&_).
  rewrite Hapi in R. injection R as <-.
  assert (Hl : receiver_list (settings w1) = parsed (receivers_text form))
    by (by rewrite Hs).
  destruct (run_batch float_of_str int_of_str composing w1 port Hopen)
    as (w2&new&R2&_&_&Htr).
  { by rewrite Hl. }
  { intros k _. apply delay_of_accepted; [done|apply Hr..]. }
  exists w2. rewrite Htr, Hl, Ht. split_and!; [done| |].
  - rewrite !sent_to_app, sent_to_handshake, sent_to_rounds. cbn.
    rewrite app_nil_r. f_equal.
    rewrite <- (list_fmap_id (filter _ (parsed _))) at 2.
    apply list_fmap_ext. intros i r Hi.
    apply list_elem_of_lookup_2, list_elem_of_filter in Hi as [_ Hin].
    by destruct (parsed_entry_clean _ r Hin) as (_&_&_&?&_).
  - rewrite !sleeps_app, sleeps_handshake, sleeps_rounds, !length_app,
      length_fmap, length_seq. cbn. lia.
Qed.

End Form_to_batch.

(** ** Concrete runs of the further properties *)

Lemma bad_port_stops_before_connecting_witness :
  int digits (smtp_port (settings blank_port))
  = Raised (ValueError "invalid literal for int() with base 10: ''") ∧
  ∃ w' new,
    send_bulk_emails digits_float digits plain_headers blank_port = (Ok tt, w') ∧
    log w' = log blank_port ++ new ∧
    log_text <$> new
    = ["Connecting to SMTP server...";
       "Error in send_bulk_emails: invalid literal for int() with base 10: ''"] ∧
    trace w' = [].
Proof.
  split; [reflexivity|].
  destruct (bad_port_stops_before_connecting digits_float digits plain_headers
              blank_port _ eq_refl)
    as (w'&new&R&Hl&Ht&Htr).
  exists w', new. repeat split; assumption.
Defined.

Lemma connection_failure_aborts_batch_witness :
  connect_outcome (smtp unreachable) = Some connection_refused ∧
  ∃ w' new tr,
    send_bulk_emails digits_float digits plain_headers unreachable = (Ok tt, w') ∧
    log_text <$> new
    = ["Connecting to SMTP server...";
       "Error in send_bulk_emails: [Errno 111] Connection refused"] ∧
    trace w' = trace unreachable ++ tr ∧
    logins tr = [] ∧ sent_to tr = [] ∧
    connections tr = [("smtp.gmail.com", 587%Z)].
Proof.
  split; [reflexivity|].
  destruct (connection_failure_aborts_batch digits_float digits plain_headers
              unreachable 587 connection_refused eq_refl (or_introl eq_refl))
    as (w'&new&tr&R&Hl&Ht&Htr&Hlg&Hsent&_&Hc).
  exists w', new, tr. repeat split; assumption.
Defined.

Lemma hasty_opens : session_opens digits hasty 587.
Proof. by repeat split. Qed.

Lemma refused_delay_stops_after_first_witness :
  float digits_float (min_delay (settings hasty)) = Ok (Q2Qc (inject_Z (-1))) ∧
  (Q2Qc (inject_Z (-1)) < 0)%Qc ∧
  (sleep_min ≤ Q2Qc (inject_Z (-1)))%Qc ∧
  ∃ w' new,
    send_bulk_emails digits_float digits plain_headers hasty = (Ok tt, w') ∧
    log_text <$> new
    = ["Connecting to SMTP server..."; "Logged in successfully!";
       "Sent to a@b.c (1/3)"; "Waiting -1.00s before next email...";
       "Error in send_bulk_emails: sleep length must be non-negative"] ∧
    sent_to (trace w') = ["a@b.c"].
Proof.
  assert (Hin : (sleep_min ≤ Q2Qc (inject_Z (-1)))%Qc) by (by vm_compute).
  split_and!; [reflexivity|reflexivity|exact Hin|].
  destruct (refused_delay_stops_after_first digits_float digits plain_headers hasty
              587 (Q2Qc (inject_Z (-1))) (Q2Qc (inject_Z (-1))) "a@b.c"
              ["d@e.f"; "g@h.i"] hasty_opens eq_refl eq_refl eq_refl
              (or_introl (conj eq_refl eq_refl)) halves_unit_draws)
    as (w'&new&e&R&Hl&He&Ht&Htr&Hsign&_&_).
  exists w', new. rewrite (Hsign Hin eq_refl) in Ht.
  split_and!; [exact R|exact Ht|].
  rewrite Htr. reflexivity.
Defined.

Lemma parse_receivers_blank_text_witness :
  Forall (λ c, is_delim c = true ∨ isspace c = true) (chars blank_text) ∧
  ∃ w', parse_receivers blank_text idle = (Ok [], w') ∧ log w' = log idle.
Proof.
  assert (H : Forall (λ c, is_delim c = true ∨ isspace c = true) (chars blank_text)).
  { repeat constructor; (by left) || (by right). }
  split; [exact H|]. exact (parse_receivers_blank_text blank_text idle H).
Defined.

Lemma example_form_opens :
  session_opens digits (API_send_emails example_form idle).2 587.
Proof. by repeat split. Qed.

Lemma form_recipients_are_submitted_witness :
  ∃ w1 w2,
    API_send_emails example_form idle = (Ok tt, w1) ∧
    send_bulk_emails digits_float digits plain_headers w1 = (Ok tt, w2) ∧
    sent_to (trace w2) = ["a@b.com"; "c@d.com"; "bad-entry"] ∧
    length (sleeps (trace w2)) = 3.
Proof.
  pose (w1 := (API_send_emails example_form idle).2).
  assert (H1 : API_send_emails example_form idle = (Ok tt, w1)) by reflexivity.
  assert (H3 : delays_accepted digits_float (settings w1))
    by (by apply default_delays_accepted).
  assert (H5 : parsed (receivers_text example_form) ≠ []) by (by vm_compute).
  destruct (form_recipients_are_submitted digits_float digits plain_headers
              example_form idle w1 587
              H1 example_form_opens H3 halves_unit_draws H5) as (w2&R&Hsent&Hsl).
  exists w1, w2. split_and!; [exact H1|exact R| |].
  - rewrite Hsent. by vm_compute.
  - rewrite Hsl. reflexivity.
Defined.
